(** * Flashcards: the Modified-Leitner engine of [algorithm.ts]

    A shallow embedding of [toBucketSets], [practice], [update], [getHint]
    and [computeProgress].  The engine works on JavaScript objects: a
    [Map] from bucket numbers to [Set] objects of flashcards.  The [Set]
    objects are mutable and are reached through references, so they live
    in an explicit heap; a function that reads or writes them is a
    computation over that heap, which may also throw. *)

From stdpp Require Import gmap strings list.
From Stdlib Require Ascii PrimFloat Uint63.

(** ** Strings

    A JavaScript string is a sequence of UTF-16 code units. *)

Abbreviation JSString := (list N).

Definition str (s : string) : JSString :=
  Ascii.N_of_ascii <$> String.list_ascii_of_string s.

(** ** Cards, difficulties, history entries *)

(** Modelled from the spec: class [Flashcard] of flashcards.ts, which is
    imported by algorithm.ts but is not part of the sources at hand.  The
    attributes are those of the data model (front, back, hint, tags);
    [oid] is the identity of the object, which is what a JavaScript [Set]
    or [Map] compares. *)
Record Flashcard := mkFlashcard {
  oid : nat;
  front : JSString;
  back : JSString;
  hint : JSString;
  tags : list JSString
}.

(** Modelled from the spec: enum [AnswerDifficulty] of flashcards.ts, a
    closed enumeration with the three variants the engine switches on. *)
Inductive AnswerDifficulty := Wrong | Hard | Easy.

(** An element of the [history] array of [computeProgress]; [date] is the
    time value of the [Date] object. *)
Record HistoryEntry := mkHistoryEntry {
  card : Flashcard;
  date : Z;
  difficulty : AnswerDifficulty
}.

#[global] Instance Flashcard_eq_dec : EqDecision Flashcard.
Proof. solve_decision. Defined.

#[global] Instance Flashcard_countable : Countable Flashcard.
Proof.
  refine (inj_countable'
            (λ c, (oid c, front c, back c, hint c, tags c))
            (λ '(i, f, b, t, g), mkFlashcard i f b t g) _).
  by intros [].
Defined.

#[global] Instance AnswerDifficulty_eq_dec : EqDecision AnswerDifficulty.
Proof. solve_decision. Defined.

(** ** The heap of [Set] objects *)

Abbreviation SetRef := nat (only parsing).
Abbreviation Heap := (list (gset Flashcard)).

(** The cards a [Set] object holds.  A reference that is not allocated
    reads as the empty set. *)
Definition contents (h : Heap) (r : SetRef) : gset Flashcard := h !!! r.

(** Completion of a call: a value, or a thrown error with its message. *)
Inductive Completion (A : Type) : Type :=
| Normal (a : A)
| Throw (msg : JSString).
Arguments Normal {A} a.
Arguments Throw {A} msg.

#[global] Instance Completion_eq_dec `{EqDecision A} : EqDecision (Completion A).
Proof. solve_decision. Defined.

Definition M (A : Type) : Type := Heap → Completion A * Heap.

#[global] Instance M_ret : MRet M := λ A a h, (Normal a, h).
#[global] Instance M_bind : MBind M := λ A B f m h,
  match m h with
  | (Normal a, h') => f a h'
  | (Throw e, h') => (Throw e, h')
  end.

Definition throw {A} (msg : JSString) : M A := λ h, (Throw msg, h).

(** [new Set(iterable)]: a fresh object holding the given cards. *)
Definition newSet (init : gset Flashcard) : M SetRef :=
  λ h, (Normal (length h), h ++ [init]).

(** [s.has(c)], [s.size], [s.add(c)], [s.delete(c)] and the cards
    [s.forEach] visits. *)
Definition setHas (s : SetRef) (c : Flashcard) : M bool :=
  λ h, (Normal (bool_decide (c ∈ contents h s)), h).
Definition setSize (s : SetRef) : M nat :=
  λ h, (Normal (size (contents h s)), h).
Definition setAdd (s : SetRef) (c : Flashcard) : M unit :=
  λ h, (Normal (), <[s := contents h s ∪ {[c]}]> h).
Definition setDelete (s : SetRef) (c : Flashcard) : M unit :=
  λ h, (Normal (), <[s := contents h s ∖ {[c]}]> h).
Definition setElements (s : SetRef) : M (list Flashcard) :=
  λ h, (Normal (elements (contents h s)), h).

(** [for (const x of xs) body(x)] without [break]. *)
Fixpoint forEach {A} (xs : list A) (body : A → M unit) : M unit :=
  match xs with
  | [] => mret ()
  | x :: xs' => body x ;; forEach xs' body
  end.

(** ** JavaScript [Map] objects

    The entries of a [Map], in insertion order, which is the order a
    [for ... of] loop visits them in. *)
Section JSMap.
Context {K V : Type} `{EqDecision K}.

Fixpoint map_get (k : K) (m : list (K * V)) : option V :=
  match m with
  | [] => None
  | (k', v) :: m' => if decide (k' = k) then Some v else map_get k m'
  end.

Definition map_has (k : K) (m : list (K * V)) : bool :=
  bool_decide (is_Some (map_get k m)).

(** [m.set(k, v)]: an existing key keeps its position. *)
Fixpoint map_set (k : K) (v : V) (m : list (K * V)) : list (K * V) :=
  match m with
  | [] => [(k, v)]
  | (k', v') :: m' =>
      if decide (k' = k) then (k, v) :: m' else (k', v') :: map_set k v m'
  end.

Definition map_delete (k : K) (m : list (K * V)) : list (K * V) :=
  filter (λ e, e.1 ≠ k) m.

Definition map_keys (m : list (K * V)) : list K := m.*1.
Definition map_values (m : list (K * V)) : list V := m.*2.
Definition map_size (m : list (K * V)) : nat := length m.
End JSMap.

(** Modelled from the spec: type [BucketMap] of flashcards.ts, the sparse
    mapping from bucket number to [Set] of cards. *)
Abbreviation BucketMap := (list (nat * SetRef)).

(** [Math.max(...xs)] on natural numbers; [None] stands for [-Infinity],
    the value of [Math.max()]. *)
Definition Math_max (xs : list nat) : option nat :=
  match xs with
  | [] => None
  | x :: xs' => Some (foldl Nat.max x xs')
  end.

(** ** [toBucketSets] *)

(** [new Set(x)] where [x] is a [Set] or [undefined]: a fresh object with
    the same cards, or an empty one. *)
Definition newSetFrom (src : option SetRef) : M SetRef :=
  λ h, newSet (from_option (contents h) ∅ src) h.

(** The body of the loop [for (let i = 0; i <= maxBucket; i++)], run on
    the remaining values of [i]. *)
Fixpoint toBucketSets_loop (buckets : BucketMap) (indices : list nat)
    (result : list SetRef) : M (list SetRef) :=
  match indices with
  | [] => mret result
  | i :: indices' =>
      s ← (if map_has i buckets then newSetFrom (map_get i buckets)
           else newSet ∅);
      toBucketSets_loop buckets indices' (result ++ [s])
  end.

Definition toBucketSets (buckets : BucketMap) : M (list SetRef) :=
  if decide (map_size buckets = 0) then mret []
  else
    match Math_max (map_keys buckets) with
    | Some maxBucket => toBucketSets_loop buckets (seq 0 (S maxBucket)) []
    | None => mret []
    end.

(** ** [practice]

    [day % interval] is the remainder of the truncated division, and
    [buckets[i]?.forEach] visits the cards of the set at index [i]. *)

Definition practice (buckets : list SetRef) (day : Z) : M SetRef :=
  result ← newSet ∅;
  let retiredBucket := 5 in
  forEach (seq 0 (length buckets)) (λ i,
    if decide (i = retiredBucket) then mret ()
    else
      let interval := (2 ^ Z.of_nat i)%Z in
      if decide (Z.rem day interval = 0%Z) then
        match buckets !! i with
        | Some s =>
            cards ← setElements s;
            forEach cards (λ card, setAdd result card)
        | None => mret ()
        end
      else mret ()) ;;
  mret result.

(** ** [update] *)

(** The loop [for (const [bucket, cards] of newMap)] of [update], run on
    the entries not visited yet.  It stops at the first bucket holding
    the card, after taking the card out of that [Set] object and dropping
    the bucket from [newMap] when the set is left empty. *)
Fixpoint update_scan (entries newMap : BucketMap) (card : Flashcard)
    : M (option nat * BucketMap) :=
  match entries with
  | [] => mret (None, newMap)
  | (bucket, cards) :: entries' =>
      found ← setHas cards card;
      if found : bool then
        setDelete cards card ;;
        n ← setSize cards;
        mret (Some bucket,
              if decide (n = 0) then map_delete bucket newMap else newMap)
      else update_scan entries' newMap card
  end.

Definition update (buckets : BucketMap) (card : Flashcard)
    (difficulty : AnswerDifficulty) : M BucketMap :=
  (* new Map(buckets): the entries are copied, the Set objects are not *)
  let newMap := buckets in
  '(currentBucket, newMap) ← update_scan newMap newMap card;
  match currentBucket with
  | None => mret newMap
  | Some currentBucket =>
      let newBucket :=
        match difficulty with
        | Wrong => 0
        | Easy =>
            if decide (currentBucket = 5) then currentBucket
            else currentBucket + 1
        | Hard => Z.to_nat (Z.max 0 (Z.of_nat currentBucket - 1))
        end in
      newMap ← (if map_has newBucket newMap then mret newMap
                else s ← newSet ∅; mret (map_set newBucket s newMap));
      match map_get newBucket newMap with
      | Some s => setAdd s card ;; mret newMap
      | None => throw (str "TypeError: Cannot read properties of undefined")
      end
  end.

(** ** [getHint] *)

(** The code units the class [\s] of a regular expression matches. *)
Definition is_whitespace (u : N) : bool :=
  bool_decide (u ∈ [9; 10; 11; 12; 13; 32; 160; 5760; 8232; 8233; 8239;
                    8287; 12288; 65279]%N)
  || ((8192 <=? u)%N && (u <=? 8202)%N).

(** [s.replace(/\s/g, '')] *)
Definition replace_whitespace (s : JSString) : JSString :=
  filter (λ u, is_whitespace u = false) s.

(** [s.split('')]: one string per code unit. *)
Definition split_units (s : JSString) : list JSString := (λ u, [u]) <$> s.

(** [s.repeat(n)] *)
Definition repeat_str (s : JSString) (n : nat) : JSString :=
  mjoin (replicate n s).

Definition getHint (card : Flashcard) : JSString :=
  if bool_decide (str "language" ∈ tags card) then
    let letters := split_units (replace_whitespace (back card)) in
    if decide (length letters = 0) then []
    else
      from_option id (str "undefined") (letters !! 0)
      ++ repeat_str (str "_") (length letters - 1)
  else hint card.

(** ** [computeProgress] *)

(** The JavaScript number that holds a count.  Numbers are IEEE 754
    binary64 values, so the quotient [totalPractices / total] is the
    binary64 division of two of them. *)
Definition number (n : nat) : PrimFloat.float :=
  PrimFloat.of_uint63 (Uint63.of_Z (Z.of_nat n)).

(** The object [{ total, buckets, averagePractices }] that
    [computeProgress] returns. *)
Record Progress := mkProgress {
  total : nat;
  buckets : list nat;
  averagePractices : PrimFloat.float
}.

(** The [forEach] over [history] that fills [practiceCounts]. *)
Definition count_practices (history : list HistoryEntry)
    : list (Flashcard * nat) :=
  foldl (λ practiceCounts entry,
           map_set (card entry)
             (default 0 (map_get (card entry) practiceCounts) + 1)
             practiceCounts)
        [] history.

Definition computeProgress (buckets : BucketMap)
    (history : list HistoryEntry) : M Progress :=
  λ h,
    if decide (length history = 0)
    then (Throw (str "History must not be empty"), h)
    else
      let total :=
        foldl (λ sum set, sum + size (contents h set)) 0
              (map_values buckets) in
      let maxBucket :=
        default 0 (Math_max (map_keys buckets ++ [0])) in
      let bucketCounts :=
        foldl (λ counts i,
                 counts ++ [from_option (λ s, size (contents h s)) 0
                                        (map_get i buckets)])
              [] (seq 0 (S maxBucket)) in
      let practiceCounts := count_practices history in
      let totalPractices :=
        foldl (λ a b, a + b) 0 (map_values practiceCounts) in
      let average :=
        if decide (total = 0) then PrimFloat.zero
        else PrimFloat.div (number totalPractices) (number total) in
      (Normal (mkProgress total bucketCounts average), h).

(** ** [getBucketRange] *)

(** The object [{ minBucket, maxBucket }]. *)
Record BucketRange := mkBucketRange {
  minBucket : nat;
  maxBucket : nat
}.

#[global] Instance BucketRange_eq_dec : EqDecision BucketRange.
Proof. solve_decision. Defined.

(** [Math.min(...xs)] on natural numbers; [None] stands for [Infinity],
    the value of [Math.min()]. *)
Definition Math_min (xs : list nat) : option nat :=
  match xs with
  | [] => None
  | x :: xs' => Some (foldl Nat.min x xs')
  end.

(** [buckets.forEach((set, index) => ...)], run on the elements from
    [index] on: the index of every set that has a card is pushed on
    [nonEmpty]. *)
Fixpoint getBucketRange_scan (buckets : list SetRef) (index : nat)
    (nonEmpty : list nat) : M (list nat) :=
  match buckets with
  | [] => mret nonEmpty
  | set :: buckets' =>
      n ← setSize set;
      getBucketRange_scan buckets' (S index)
        (if decide (0 < n) then nonEmpty ++ [index] else nonEmpty)
  end.

(** [None] is [undefined].  Past the test of [nonEmpty.length] the array
    has an element, so neither [Math.min] nor [Math.max] is called
    without arguments. *)
Definition getBucketRange (buckets : list SetRef) : M (option BucketRange) :=
  nonEmpty ← getBucketRange_scan buckets 0 [];
  if decide (length nonEmpty = 0) then mret None
  else
    mret (Some (mkBucketRange (default 0 (Math_min nonEmpty))
                              (default 0 (Math_max nonEmpty)))).

(** ** What a caller observes, and the well-formedness of the objects *)

(** [m] is a [Map] object whose values are [Set] objects of the heap [h]:
    the keys are distinct and every reference is allocated. *)
Definition MapObject (h : Heap) (m : BucketMap) : Prop :=
  NoDup (map_keys m) ∧ Forall (λ e, e.2 < length h) m.

(** [bs] is an array of [Set] objects of the heap [h]. *)
Definition ArrayObject (h : Heap) (bs : list SetRef) : Prop :=
  Forall (λ r, r < length h) bs.

(** The cards of bucket [k]: those of [m.get(k)], none when the key is
    absent. *)
Definition bucket (h : Heap) (m : BucketMap) (k : nat) : gset Flashcard :=
  from_option (contents h) ∅ (map_get k m).

(** The buckets of a mapping with the cards each one holds, as a caller
    that kept a reference to the [Map] reads them. *)
Definition deref (h : Heap) (m : BucketMap) : list (nat * gset Flashcard) :=
  (λ e, (e.1, contents h e.2)) <$> m.

(** The invariant of the sparse mapping: a bucket number that is present
    maps to a non-empty set, and a card is in at most one bucket. *)
Definition no_empty_bucket (h : Heap) (m : BucketMap) : Prop :=
  ∀ k, is_Some (map_get k m) → bucket h m k ≠ ∅.

Definition one_bucket_per_card (h : Heap) (m : BucketMap) : Prop :=
  ∀ c k1 k2, c ∈ bucket h m k1 → c ∈ bucket h m k2 → k1 = k2.

(** No two bucket numbers share one [Set] object. *)
Definition refs_inj (m : BucketMap) : Prop :=
  ∀ k1 k2 r, map_get k1 m = Some r → map_get k2 m = Some r → k1 = k2.

(** The invariant of the mapping, read on its dense array: a card is in
    at most one bucket. *)
Definition disjoint_buckets (h : Heap) (bs : list SetRef) : Prop :=
  ∀ c i j si sj,
    bs !! i = Some si → bs !! j = Some sj →
    c ∈ contents h si → c ∈ contents h sj → i = j.

(** The destination bucket of a card of bucket [b], in the words of the
    specification. *)
Definition destination (d : AnswerDifficulty) (b : nat) : nat :=
  match d with
  | Wrong => 0
  | Easy => if decide (b = 5) then 5 else b + 1
  | Hard => Z.to_nat (Z.max 0 (Z.of_nat b - 1))
  end.

(** The cards [practice] collects from the buckets with the given
    indices: those of the buckets other than bucket 5 whose interval
    divides the day. *)
Definition due_cards (h : Heap) (bs : list SetRef) (day : Z)
    (indices : list nat) : gset Flashcard :=
  ⋃ ((λ i, if decide (i = 5) then ∅
           else if decide (Z.rem day (2 ^ Z.of_nat i) = 0%Z)
                then from_option (contents h) ∅ (bs !! i)
                else ∅) <$> indices).

(** The total number of cards of a mapping and of a dense array. *)
Definition sum_sizes (h : Heap) (m : BucketMap) : nat :=
  sum_list ((λ e, size (contents h e.2)) <$> m).

Definition sum_sizes_dense (h : Heap) (bs : list SetRef) : nat :=
  sum_list ((λ r, size (contents h r)) <$> bs).

(** The largest bucket number present ([0] for the empty mapping). *)
Definition max_occupied (m : BucketMap) : nat := max_list (map_keys m).

(** The per-bucket counts from bucket [0] to the largest one present. *)
Definition dense_counts (h : Heap) (m : BucketMap) : list nat :=
  (λ i, size (bucket h m i)) <$> seq 0 (S (max_occupied m)).

(** How often a card occurs in a history, the distinct cards of a
    history, and the sum of the former over the latter. *)
Definition times_practiced (c : Flashcard) (history : list HistoryEntry) : nat :=
  length (filter (λ e, card e = c) history).

Definition distinct_cards (history : list HistoryEntry) : list Flashcard :=
  remove_dups (card <$> history).

Definition practices (history : list HistoryEntry) : nat :=
  sum_list ((λ c, times_practiced c history) <$> distinct_cards history).

(** The masked form of a text, in the words of the specification: the
    whitespace is stripped, the first remaining character is shown and a
    mask character stands for each of the others. *)
Definition strip_whitespace (s : JSString) : JSString :=
  filter (λ u, ¬ is_whitespace u) s.

Definition masked (s : JSString) : JSString :=
  match strip_whitespace s with
  | [] => []
  | u :: rest => u :: ((λ _, 95%N) <$> rest)
  end.

(** Two cards and the objects of the examples: a heap with one [Set]
    object holding [cardX], and the mappings with that set as bucket 3,
    as bucket 2 and as bucket 0. *)
Definition cardX : Flashcard := mkFlashcard 0 (str "Q") (str "A") (str "") [].
Definition cardY : Flashcard := mkFlashcard 1 (str "Q2") (str "A2") (str "") [].

Definition heapX : Heap := [{[cardX]}].
Definition mapX3 : BucketMap := [(3, 0)].
Definition mapX2 : BucketMap := [(2, 0)].
Definition mapX0 : BucketMap := [(0, 0)].

(** A history with one trial, of [cardX]. *)
Definition historyX : list HistoryEntry := [mkHistoryEntry cardX 0 Easy].

(** The language card with back text [test]. *)
Definition cardTest : Flashcard :=
  mkFlashcard 2 (str "") (str "test") (str "") [str "language"].

(** An array of six buckets over two heaps: one in which [cardX] sits
    both in bucket 0 and in the retired bucket 5, and one in which bucket
    0 holds [cardY] and the retired bucket holds [cardX]. *)
Definition heapOverlap : Heap := [{[cardX]}; ∅; ∅; ∅; ∅; {[cardX]}].
Definition heapRetired : Heap := [{[cardY]}; ∅; ∅; ∅; ∅; {[cardX]}].
Definition bucketsSix : list SetRef := [0; 1; 2; 3; 4; 5].

(** The indices, counted from [index], of the sets of an array that hold
    a card. *)
Fixpoint occupied_from (h : Heap) (bs : list SetRef) (index : nat) : list nat :=
  match bs with
  | [] => []
  | s :: bs' =>
      (if decide (contents h s ≠ ∅) then [index] else [])
      ++ occupied_from h bs' (S index)
  end.

(** * Lemmas *)

(** ** The heap *)

Lemma contents_valid (h : Heap) r c : c ∈ contents h r → r < length h.
Proof.
  unfold contents. intros Hc.
  destruct (decide (r < length h)) as [|Hge]; [done|].
  rewrite list_lookup_total_alt, lookup_ge_None_2 in Hc by lia.
  set_solver.
Qed.

Lemma contents_nonempty_valid (h : Heap) r : contents h r ≠ ∅ → r < length h.
Proof.
  intros Hne. destruct (decide (r < length h)) as [|Hge]; [done|].
  exfalso. apply Hne. unfold contents.
  by rewrite list_lookup_total_alt, lookup_ge_None_2 by lia.
Qed.

Lemma contents_insert (h : Heap) r r' X :
  r < length h →
  contents (<[r := X]> h) r' = if decide (r' = r) then X else contents h r'.
Proof.
  intros Hr. unfold contents. case_decide as Heq.
  - subst. by rewrite list_lookup_total_insert_eq.
  - by rewrite list_lookup_total_insert_ne.
Qed.

Lemma contents_alloc (h : Heap) X r :
  contents (h ++ [X]) r = if decide (r = length h) then X else contents h r.
Proof.
  unfold contents. rewrite !list_lookup_total_alt. case_decide as Heq.
  - subst. by rewrite lookup_app_r, Nat.sub_diag by lia.
  - destruct (decide (r < length h)).
    + by rewrite lookup_app_l.
    + rewrite !lookup_ge_None_2; [done|lia|]. rewrite length_app. simpl. lia.
Qed.

Lemma contents_alloc_old (h : Heap) X r :
  r < length h → contents (h ++ [X]) r = contents h r.
Proof. intros. rewrite contents_alloc. case_decide; [lia|done]. Qed.

(** ** [Map] objects *)

Section JSMapFacts.
Context {K V : Type} `{EqDecision K}.
Implicit Types (m : list (K * V)) (k : K) (v : V).

Lemma map_get_elem m k v : map_get k m = Some v → (k, v) ∈ m.
Proof.
  induction m as [|[k' v'] m IH]; simpl; [done|].
  case_decide; intros Hg; simplify_eq; [left|right; auto].
Qed.

Lemma map_get_None m k : map_get k m = None ↔ k ∉ map_keys m.
Proof.
  unfold map_keys. induction m as [|[k' v'] m IH]; simpl.
  - split; [intros _; apply not_elem_of_nil|done].
  - rewrite not_elem_of_cons. case_decide; subst; [naive_solver|].
    rewrite IH. naive_solver.
Qed.

Lemma elem_map_get m k v :
  NoDup (map_keys m) → (k, v) ∈ m → map_get k m = Some v.
Proof.
  unfold map_keys. induction m as [|[k' v'] m IH]; simpl.
  - intros _ Hin. by apply elem_of_nil in Hin.
  - rewrite NoDup_cons. intros [Hk Hnd] Hin.
    apply elem_of_cons in Hin as [Heq|Hin].
    + simplify_eq. by rewrite decide_True.
    + case_decide as Hkk; [|auto]. subst. exfalso. apply Hk.
      apply list_elem_of_fmap. by exists (k, v).
Qed.

Lemma map_get_delete m k b :
  map_get k (map_delete b m) = if decide (k = b) then None else map_get k m.
Proof.
  unfold map_delete. induction m as [|[k' v'] m IH]; simpl.
  - by case_decide.
  - rewrite filter_cons. simpl. destruct (decide (k' ≠ b)) as [Hne|Heq].
    + simpl. rewrite IH. repeat case_decide; naive_solver.
    + apply dec_stable in Heq. subst. rewrite IH.
      repeat case_decide; naive_solver.
Qed.

Lemma map_get_set m k k' v :
  map_get k (map_set k' v m) = if decide (k = k') then Some v else map_get k m.
Proof.
  induction m as [|[k0 v0] m IH]; simpl.
  - repeat case_decide; naive_solver.
  - destruct (decide (k0 = k')) as [->|Hne]; simpl.
    + repeat case_decide; naive_solver.
    + rewrite IH. repeat case_decide; naive_solver.
Qed.

Lemma map_delete_sub m b e : e ∈ map_delete b m → e ∈ m.
Proof. unfold map_delete. rewrite list_elem_of_filter. naive_solver. Qed.

Lemma map_set_sub m k v e : e ∈ map_set k v m → e = (k, v) ∨ e ∈ m.
Proof.
  induction m as [|[k0 v0] m IH]; simpl.
  - rewrite list_elem_of_singleton. auto.
  - case_decide; rewrite !elem_of_cons; naive_solver.
Qed.

Lemma map_delete_NoDup m b : NoDup (map_keys m) → NoDup (map_keys (map_delete b m)).
Proof.
  unfold map_keys, map_delete. intros Hnd.
  eapply sublist_NoDup; [exact Hnd|].
  apply fmap_sublist, sublist_filter.
Qed.

Lemma map_set_keys m k v :
  map_keys (map_set k v m) =
    if decide (k ∈ map_keys m) then map_keys m else map_keys m ++ [k].
Proof.
  unfold map_keys. induction m as [|[k0 v0] m IH].
  - destruct (decide (k ∈ ([] : list (K * V)).*1)) as [Hin|]; [|done].
    by apply elem_of_nil in Hin.
  - cbn [map_set]. destruct (decide (k0 = k)) as [->|Hne].
    + rewrite decide_True; [done|left].
    + rewrite fmap_cons, IH. cbn [fst].
      destruct (decide (k ∈ m.*1)) as [Hin|Hnin].
      * rewrite decide_True; [done|]. rewrite fmap_cons. by right.
      * rewrite decide_False; [done|].
        rewrite fmap_cons, not_elem_of_cons. naive_solver.
Qed.

Lemma map_set_NoDup m k v : NoDup (map_keys m) → NoDup (map_keys (map_set k v m)).
Proof.
  intros Hnd. rewrite map_set_keys. case_decide as Hin; [done|].
  apply NoDup_app. split_and!; [done| |apply NoDup_singleton].
  intros x Hx Hx'. apply list_elem_of_singleton in Hx'. by subst.
Qed.

Lemma map_has_true m k : map_has k m = true ↔ is_Some (map_get k m).
Proof. unfold map_has. apply bool_decide_eq_true. Qed.

Lemma map_has_false m k : map_has k m = false ↔ map_get k m = None.
Proof.
  unfold map_has. rewrite bool_decide_eq_false, eq_None_not_Some. done.
Qed.
End JSMapFacts.

(** ** [update]: the scan for the card *)

Lemma update_scan_miss entries newMap c (h : Heap) :
  (∀ k r, (k, r) ∈ entries → c ∉ contents h r) →
  update_scan entries newMap c h = (Normal (None, newMap), h).
Proof.
  induction entries as [|[k r] entries IH]; intros Hmiss; [done|].
  cbn [update_scan]. unfold mbind, M_bind, setHas at 1.
  rewrite bool_decide_eq_false_2 by (apply (Hmiss k r); left).
  apply IH. intros k' r' Hin. apply (Hmiss k' r'). by right.
Qed.

Lemma update_scan_hit pre b s post newMap c (h : Heap) :
  (∀ k r, (k, r) ∈ pre → c ∉ contents h r) →
  c ∈ contents h s →
  update_scan (pre ++ (b, s) :: post) newMap c h =
    (Normal (Some b,
             if decide (size (contents h s ∖ {[c]}) = 0)
             then map_delete b newMap else newMap),
     <[s := contents h s ∖ {[c]}]> h).
Proof.
  intros Hmiss Hc. induction pre as [|[k r] pre IH].
  - cbn [app update_scan]. unfold mbind, M_bind, setHas, setDelete, setSize.
    rewrite bool_decide_eq_true_2 by done. unfold mret, M_ret.
    rewrite contents_insert by (eapply contents_valid, Hc).
    by destruct (decide (s = s)).
  - cbn [app update_scan]. unfold mbind, M_bind, setHas at 1.
    rewrite bool_decide_eq_false_2 by (apply (Hmiss k r); left).
    apply IH. intros k' r' Hin. apply (Hmiss k' r'). by right.
Qed.

(** ** Buckets under the steps of [update] *)

Lemma bucket_get (h : Heap) (m : BucketMap) k r :
  map_get k m = Some r → bucket h m k = contents h r.
Proof. unfold bucket. by intros ->. Qed.

Lemma bucket_absent (h : Heap) (m : BucketMap) k :
  map_get k m = None → bucket h m k = ∅.
Proof. unfold bucket. by intros ->. Qed.

Lemma bucket_elem (h : Heap) (m : BucketMap) k c :
  c ∈ bucket h m k → ∃ r, map_get k m = Some r ∧ c ∈ contents h r.
Proof.
  unfold bucket. destruct (map_get k m) as [r|]; simpl; [eauto|set_solver].
Qed.

Lemma bucket_store (h : Heap) (m : BucketMap) b s X k :
  refs_inj m → map_get b m = Some s → s < length h →
  bucket (<[s := X]> h) m k = if decide (k = b) then X else bucket h m k.
Proof.
  intros Hinj Hb Hs. unfold bucket. case_decide as Hk.
  - subst. rewrite Hb. simpl. rewrite contents_insert by done.
    by destruct (decide (s = s)).
  - destruct (map_get k m) as [r|] eqn:Hr; simpl; [|done].
    rewrite contents_insert by done. case_decide; [|done].
    subst r. destruct Hk. by apply (Hinj k b s).
Qed.

Lemma bucket_map_delete (h : Heap) (m : BucketMap) b k :
  bucket h (map_delete b m) k = if decide (k = b) then ∅ else bucket h m k.
Proof. unfold bucket. rewrite map_get_delete. by case_decide. Qed.

Lemma bucket_map_set (h : Heap) (m : BucketMap) k0 r k :
  bucket h (map_set k0 r m) k =
    if decide (k = k0) then contents h r else bucket h m k.
Proof. unfold bucket. rewrite map_get_set. by case_decide. Qed.

Lemma map_get_valid (h : Heap) (m : BucketMap) k r :
  Forall (λ e, e.2 < length h) m → map_get k m = Some r → r < length h.
Proof.
  intros Hval Hg. apply map_get_elem in Hg.
  rewrite Forall_forall in Hval. by apply (Hval (k, r)).
Qed.

Lemma bucket_alloc (h : Heap) (m : BucketMap) X k :
  Forall (λ e, e.2 < length h) m → bucket (h ++ [X]) m k = bucket h m k.
Proof.
  intros Hval. unfold bucket.
  destruct (map_get k m) as [r|] eqn:Hr; simpl; [|done].
  apply contents_alloc_old. eauto using map_get_valid.
Qed.

Lemma refs_inj_delete (m : BucketMap) b : refs_inj m → refs_inj (map_delete b m).
Proof.
  intros Hinj k1 k2 r. rewrite !map_get_delete.
  repeat case_decide; try done. apply Hinj.
Qed.

Lemma refs_inj_set_fresh (h : Heap) (m : BucketMap) k0 :
  Forall (λ e, e.2 < length h) m → refs_inj m →
  refs_inj (map_set k0 (length h) m).
Proof.
  intros Hval Hinj k1 k2 r. rewrite !map_get_set.
  repeat case_decide; intros H1 H2; simplify_eq; try done.
  - apply (map_get_valid h) in H2; [lia|done].
  - apply (map_get_valid h) in H1; [lia|done].
  - by apply (Hinj k1 k2 r).
Qed.

(** The invariant of the mapping keeps two buckets from sharing a [Set]
    object. *)
Lemma invariant_refs_inj (h : Heap) (m : BucketMap) :
  no_empty_bucket h m → one_bucket_per_card h m → refs_inj m.
Proof.
  intros Hne Hone k1 k2 r H1 H2.
  assert (bucket h m k1 ≠ ∅) as Hk1 by (apply Hne; eauto).
  rewrite (bucket_get h m k1 r H1) in Hk1.
  apply set_choose_L in Hk1 as [x Hx].
  apply (Hone x); [by rewrite (bucket_get h m k1 r)|by rewrite (bucket_get h m k2 r)].
Qed.

(** ** [update] on a card of the mapping *)

Lemma difference_other_nonempty (X : gset Flashcard) c :
  c ∉ X → X ≠ ∅ → X ∖ {[c]} ≠ ∅.
Proof. set_solver. Qed.

Lemma bucket_locate (h : Heap) (m : BucketMap) c b :
  NoDup (map_keys m) → one_bucket_per_card h m → c ∈ bucket h m b →
  ∃ s pre post,
    map_get b m = Some s ∧ c ∈ contents h s ∧ m = pre ++ (b, s) :: post ∧
    ∀ k r, (k, r) ∈ pre → c ∉ contents h r.
Proof.
  intros Hnd Hone Hc.
  destruct (bucket_elem h m b c Hc) as (s & Hb & Hs).
  destruct (list_elem_of_split m (b, s)) as (pre & post & Hm);
    [by apply map_get_elem|].
  exists s, pre, post. split_and!; try done.
  intros k r Hkr Hcr.
  assert ((k, r) ∈ m) as Hin by (rewrite Hm, elem_of_app; by left).
  assert (map_get k m = Some r) as Hk by by apply elem_map_get.
  assert (k = b) as -> by (apply (Hone c); [by rewrite (bucket_get h m k r)|done]).
  unfold map_keys in Hnd. rewrite Hm, fmap_app, fmap_cons in Hnd.
  apply NoDup_app in Hnd as (_ & Hdisj & _).
  apply (Hdisj b); [|left].
  apply list_elem_of_fmap. by exists (b, r).
Qed.

Lemma update_hit (h : Heap) (m : BucketMap) c d b :
  MapObject h m → no_empty_bucket h m → one_bucket_per_card h m →
  c ∈ bucket h m b →
  ∃ m' h',
    update m c d h = (Normal m', h') ∧ MapObject h' m' ∧
    (∀ k, bucket h' m' k =
          bucket h m k ∖ {[c]} ∪
          (if decide (k = destination d b) then {[c]} else ∅)) ∧
    (∀ k, is_Some (map_get k m') →
          k = destination d b ∨
          (is_Some (map_get k m) ∧ bucket h m k ∖ {[c]} ≠ ∅)).
Proof.
  intros [Hnd Hval] Hne Hone Hc.
  pose proof (invariant_refs_inj h m Hne Hone) as Hinj.
  destruct (bucket_locate h m c b Hnd Hone Hc) as (s & pre & post & Hb & Hs & Hm & Hpre).
  pose proof (update_scan_hit pre b s post m c h Hpre Hs) as Hscan.
  rewrite <- Hm in Hscan.
  assert (s < length h) as Hsv by eauto using contents_valid.
  set (h1 := <[s := contents h s ∖ {[c]}]> h) in *.
  set (m1 := if decide (size (contents h s ∖ {[c]}) = 0)
             then map_delete b m else m) in *.
  assert (length h1 = length h) as Hlen1 by apply length_insert.
  assert (NoDup (map_keys m1)) as Hnd1.
  { unfold m1. case_decide; [by apply map_delete_NoDup|done]. }
  assert (Forall (λ e, e.2 < length h1) m1) as Hval1.
  { rewrite Hlen1. unfold m1. case_decide; [|done].
    rewrite Forall_forall in Hval |- *. intros e He.
    apply Hval. by apply map_delete_sub in He. }
  assert (refs_inj m1) as Hinj1.
  { unfold m1. case_decide; [by apply refs_inj_delete|done]. }
  assert (∀ k, bucket h1 m1 k = bucket h m k ∖ {[c]}) as Hb1.
  { intros k. unfold m1. case_decide as Hsz.
    - rewrite bucket_map_delete. unfold h1. rewrite (bucket_store h m b s) by done.
      apply size_empty_inv in Hsz. apply leibniz_equiv in Hsz.
      case_decide as Hk.
      + subst k. rewrite (bucket_get h m b s) by done. by rewrite Hsz.
      + assert (c ∉ bucket h m k) by (intros Hck; apply Hk, (Hone c); done).
        set_solver.
    - unfold h1. rewrite (bucket_store h m b s) by done.
      case_decide as Hk.
      + subst k. by rewrite (bucket_get h m b s).
      + assert (c ∉ bucket h m k) by (intros Hck; apply Hk, (Hone c); done).
        set_solver. }
  assert (∀ k, is_Some (map_get k m1) →
               is_Some (map_get k m) ∧ bucket h m k ∖ {[c]} ≠ ∅) as Hp1.
  { intros k. unfold m1. case_decide as Hsz.
    - rewrite map_get_delete. case_decide as Hk; [by intros [? ?]|].
      intros Hk'. split; [done|].
      assert (c ∉ bucket h m k) by (intros Hck; apply Hk, (Hone c); done).
      by apply difference_other_nonempty, Hne.
    - intros Hk'. split; [done|].
      destruct (decide (k = b)) as [->|Hk].
      + rewrite (bucket_get h m b s) by done. intros Hemp.
        apply Hsz. rewrite Hemp. apply size_empty.
      + assert (c ∉ bucket h m k) by (intros Hck; apply Hk, (Hone c); done).
        by apply difference_other_nonempty, Hne. }
  clearbody m1 h1.
  assert (∃ m2 h2 t,
    (if map_has (destination d b) m1 then mret m1
     else s' ← newSet ∅; mret (map_set (destination d b) s' m1)) h1
      = (Normal m2, h2) ∧
    NoDup (map_keys m2) ∧ Forall (λ e, e.2 < length h2) m2 ∧ refs_inj m2 ∧
    map_get (destination d b) m2 = Some t ∧
    (∀ k, bucket h2 m2 k = bucket h1 m1 k) ∧
    (∀ k, is_Some (map_get k m2) →
          k = destination d b ∨ is_Some (map_get k m1)))
    as (m2 & h2 & t & Hstep & Hnd2 & Hval2 & Hinj2 & Ht & Hb2 & Hp2).
  { destruct (map_has (destination d b) m1) eqn:Hhas.
    - apply map_has_true in Hhas as [t Ht].
      exists m1, h1, t. split_and!; auto.
    - apply map_has_false in Hhas.
      exists (map_set (destination d b) (length h1) m1), (h1 ++ [∅]), (length h1).
      split_and!.
      + done.
      + by apply map_set_NoDup.
      + rewrite length_app. simpl.
        rewrite Forall_forall in Hval1 |- *. intros e He.
        apply map_set_sub in He as [->|He]; simpl; [lia|].
        specialize (Hval1 e He). lia.
      + by apply refs_inj_set_fresh.
      + rewrite map_get_set. by rewrite decide_True.
      + intros k. rewrite bucket_map_set. case_decide as Hk.
        * subst k. rewrite contents_alloc, decide_True by done.
          by rewrite bucket_absent.
        * by apply bucket_alloc.
      + intros k. rewrite map_get_set. case_decide; auto. }
  exists m2, (<[t := contents h2 t ∪ {[c]}]> h2).
  assert (t < length h2) as Htv by eauto using map_get_valid.
  split_and!.
  - unfold update. unfold mbind at 1, M_bind at 1. rewrite Hscan.
    assert (match d with
            | Wrong => 0
            | Easy => if decide (b = 5) then b else b + 1
            | Hard => Z.to_nat (Z.max 0 (Z.of_nat b - 1))
            end = destination d b) as ->.
    { unfold destination. destruct d; try done. by case_decide; subst. }
    unfold mbind at 1, M_bind at 1. rewrite Hstep. by rewrite Ht.
  - split; [done|]. by rewrite length_insert.
  - intros k. rewrite (bucket_store h2 m2 (destination d b) t) by done.
    rewrite <- Hb1, <- Hb2. case_decide as Hk.
    + subst k. by rewrite (bucket_get h2 m2 (destination d b) t).
    + set_solver.
  - intros k Hk. destruct (Hp2 k Hk) as [?|Hk1]; [by left|right].
    by apply Hp1.
Qed.

Lemma update_miss (h : Heap) (m : BucketMap) c d :
  (∀ k r, (k, r) ∈ m → c ∉ contents h r) →
  update m c d h = (Normal m, h).
Proof.
  intros Hmiss. unfold update. unfold mbind, M_bind.
  rewrite update_scan_miss; done.
Qed.

Lemma bucket_miss (h : Heap) (m : BucketMap) c :
  NoDup (map_keys m) → (∀ b, c ∉ bucket h m b) →
  ∀ k r, (k, r) ∈ m → c ∉ contents h r.
Proof.
  intros Hnd Hno k r Hin Hc. apply (Hno k).
  by rewrite (bucket_get h m k r) by by apply elem_map_get.
Qed.

Lemma bucketed_dec (h : Heap) (m : BucketMap) c :
  (∃ b, c ∈ bucket h m b) ∨ (∀ b, c ∉ bucket h m b).
Proof.
  destruct (decide (Exists (λ k, c ∈ bucket h m k) (map_keys m))) as [Hex|Hno].
  - left. apply Exists_exists in Hex as (k & _ & Hk). by exists k.
  - right. intros b Hb. apply Hno, Exists_exists. exists b. split; [|done].
    apply bucket_elem in Hb as (r & Hr & _).
    apply map_get_elem in Hr. unfold map_keys.
    apply list_elem_of_fmap. by exists (b, r).
Qed.

(** ** The example mapping *)

Lemma mapX3_object : MapObject heapX mapX3.
Proof. split; [apply NoDup_singleton|]. repeat constructor. Qed.

Lemma mapX3_bucket k : bucket heapX mapX3 k = if decide (k = 3) then {[cardX]} else ∅.
Proof.
  unfold bucket, mapX3. simpl. destruct (decide (3 = k)) as [<-|Hne]; [done|].
  simpl. by rewrite decide_False by done.
Qed.

Lemma mapX3_no_empty : no_empty_bucket heapX mapX3.
Proof.
  intros k [r Hr]. rewrite mapX3_bucket. unfold mapX3 in Hr. simpl in Hr.
  case_decide; simplify_eq. rewrite decide_True by done. set_solver.
Qed.

Lemma mapX3_one_bucket : one_bucket_per_card heapX mapX3.
Proof.
  intros c k1 k2. rewrite !mapX3_bucket.
  repeat case_decide; subst; set_solver.
Qed.

(** * The claims about [update] *)

(** C7: a card that no bucket of the mapping holds is a no-op for
    [update]: the call completes normally, without an error, and returns
    the mapping as it was, with every [Set] object as it was. *)
Theorem update_unbucketed_noop (h : Heap) (m : BucketMap) c d :
  (∀ k r, (k, r) ∈ m → c ∉ contents h r) →
  update m c d h = (Normal m, h).
Proof. apply update_miss. Qed.

Lemma update_unbucketed_noop_witness :
  (∀ k r, (k, r) ∈ mapX3 → cardY ∉ contents heapX r) ∧
  update mapX3 cardY Hard heapX = (Normal mapX3, heapX).
Proof.
  assert (∀ k r, (k, r) ∈ mapX3 → cardY ∉ contents heapX r) as Hmiss.
  { intros k r Hin. apply list_elem_of_singleton in Hin. simplify_eq.
    unfold contents, heapX. simpl. rewrite elem_of_singleton.
    by intros [=]. }
  split; [exact Hmiss|].
  exact (update_unbucketed_noop heapX mapX3 cardY Hard Hmiss).
Defined.

(** C2: for a mapping that satisfies the invariant and a card of its
    bucket [b], [update] completes normally and, in the mapping it
    returns, the card is in the destination bucket and in no other one:
    bucket 0 for Wrong, bucket [b + 1] for Easy unless [b] is the retired
    bucket 5, which is kept, and bucket [max(0, b - 1)] for Hard. *)
Theorem update_moves_card (h : Heap) (m : BucketMap) c d b :
  MapObject h m → no_empty_bucket h m → one_bucket_per_card h m →
  c ∈ bucket h m b →
  ∃ m' h',
    update m c d h = (Normal m', h') ∧
    ∀ k, c ∈ bucket h' m' k ↔ k = destination d b.
Proof.
  intros Hobj Hne Hone Hc.
  destruct (update_hit h m c d b Hobj Hne Hone Hc) as (m' & h' & Hup & _ & Hb & _).
  exists m', h'. split; [done|].
  intros k. rewrite Hb. case_decide; set_solver.
Qed.

Lemma update_moves_card_witness :
  MapObject heapX mapX3 ∧ no_empty_bucket heapX mapX3 ∧
  one_bucket_per_card heapX mapX3 ∧ cardX ∈ bucket heapX mapX3 3 ∧
  ∃ m' h',
    update mapX3 cardX Hard heapX = (Normal m', h') ∧
    ∀ k, cardX ∈ bucket h' m' k ↔ k = 2.
Proof.
  assert (cardX ∈ bucket heapX mapX3 3) as Hc.
  { rewrite mapX3_bucket. simpl. by apply elem_of_singleton. }
  split_and!; [apply mapX3_object|apply mapX3_no_empty|apply mapX3_one_bucket|exact Hc|].
  exact (update_moves_card heapX mapX3 cardX Hard 3
           mapX3_object mapX3_no_empty mapX3_one_bucket Hc).
Defined.

(** C3, as the code has it: for a mapping that satisfies the invariant,
    [update] completes normally and returns a mapping that satisfies it
    again, so no bucket of the result is empty; a card that was in some
    bucket is in exactly one bucket of the result, and a card that was in
    no bucket is in none. *)
Theorem update_keeps_invariant (h : Heap) (m : BucketMap) c d :
  MapObject h m → no_empty_bucket h m → one_bucket_per_card h m →
  ∃ m' h',
    update m c d h = (Normal m', h') ∧
    MapObject h' m' ∧ no_empty_bucket h' m' ∧ one_bucket_per_card h' m' ∧
    ((∃ b, c ∈ bucket h m b) → ∃ k, ∀ k', c ∈ bucket h' m' k' ↔ k' = k) ∧
    ((∀ b, c ∉ bucket h m b) → ∀ k, c ∉ bucket h' m' k).
Proof.
  intros Hobj Hne Hone.
  destruct (bucketed_dec h m c) as [[b Hc]|Hno].
  - destruct (update_hit h m c d b Hobj Hne Hone Hc)
      as (m' & h' & Hup & Hobj' & Hb & Hp).
    exists m', h'. split_and!; try done.
    + intros k Hk. rewrite Hb. destruct (Hp k Hk) as [->|[_ Hk']].
      * rewrite decide_True by done. set_solver.
      * set_solver.
    + intros x k1 k2. rewrite !Hb. intros H1 H2.
      destruct (decide (x = c)) as [->|Hx].
      * destruct (decide (k1 = destination d b)) as [->|?]; [|set_solver].
        destruct (decide (k2 = destination d b)) as [->|?]; [done|set_solver].
      * apply (Hone x).
        -- destruct (decide (k1 = destination d b)); set_solver.
        -- destruct (decide (k2 = destination d b)); set_solver.
    + intros _. exists (destination d b). intros k. rewrite Hb.
      case_decide; set_solver.
    + intros Hno. by destruct (Hno b).
  - exists m, h. split_and!; try done.
    + apply update_miss. destruct Hobj. by apply bucket_miss.
    + intros [b Hc]. by destruct (Hno b).
Qed.

Lemma update_keeps_invariant_witness :
  MapObject heapX mapX3 ∧ no_empty_bucket heapX mapX3 ∧
  one_bucket_per_card heapX mapX3 ∧
  ∃ m' h',
    update mapX3 cardX Easy heapX = (Normal m', h') ∧
    MapObject h' m' ∧ no_empty_bucket h' m' ∧ one_bucket_per_card h' m' ∧
    ((∃ b, cardX ∈ bucket heapX mapX3 b) →
     ∃ k, ∀ k', cardX ∈ bucket h' m' k' ↔ k' = k) ∧
    ((∀ b, cardX ∉ bucket heapX mapX3 b) → ∀ k, cardX ∉ bucket h' m' k).
Proof.
  split_and!; [apply mapX3_object|apply mapX3_no_empty|apply mapX3_one_bucket|].
  exact (update_keeps_invariant heapX mapX3 cardX Easy
           mapX3_object mapX3_no_empty mapX3_one_bucket).
Defined.

(** C3 as stated fails on a card that is in no bucket: the empty mapping
    satisfies the invariant, [update] returns it as it is, and the card
    is then in no bucket of the result instead of exactly one. *)
Lemma update_unbucketed_card_in_no_bucket :
  MapObject [] [] ∧ no_empty_bucket [] [] ∧ one_bucket_per_card [] [] ∧
  update [] cardX Easy [] = (Normal [], []) ∧
  ¬ ∃ k, cardX ∈ bucket [] [] k.
Proof.
  split_and!.
  - split; constructor.
  - by intros k [r Hr].
  - intros c k1 k2 Hc. unfold bucket in Hc. simpl in Hc. set_solver.
  - reflexivity.
  - intros [k Hk]. unfold bucket in Hk. simpl in Hk. set_solver.
Qed.



(** C1 does not hold of the code.  [update] copies the [Map] but not the
    [Set] objects, so taking the card out of its bucket empties the set
    the caller's mapping still refers to: after
    [update({3: {cardX}}, cardX, Wrong)] the caller's mapping reads
    [{3: {}}]. *)
Theorem update_mutates_callers_sets :
  deref heapX mapX3 = [(3, {[cardX]})] ∧
  update mapX3 cardX Wrong heapX = (Normal [(0, 1)], [∅; {[cardX]}]) ∧
  deref [∅; {[cardX]}] mapX3 = [(3, ∅)] ∧
  deref [∅; {[cardX]}] mapX3 ≠ deref heapX mapX3.
Proof.
  split_and!.
  - reflexivity.
  - apply (bool_decide_unpack _). by vm_compute.
  - reflexivity.
  - intros Heq. apply (f_equal (fmap (λ e, bool_decide (cardX ∈ e.2)))) in Heq.
    vm_compute in Heq. discriminate.
Qed.

(** ** [toBucketSets] *)

Lemma Math_max_nonempty (xs : list nat) :
  xs ≠ [] → Math_max xs = Some (max_list xs).
Proof.
  destruct xs as [|x xs]; [done|]. intros _. simpl. f_equal.
  revert x. induction xs as [|y xs IH]; intros x.
  - simpl. by rewrite Nat.max_0_r.
  - cbn [foldl]. rewrite IH. simpl. symmetry. apply Nat.max_assoc.
Qed.

Lemma contents_app_old (h ext : Heap) r :
  r < length h → contents (h ++ ext) r = contents h r.
Proof. intros Hr. unfold contents. by rewrite lookup_total_app_l. Qed.

Lemma contents_app_new (h ext : Heap) j :
  contents (h ++ ext) (length h + j) = ext !!! j.
Proof.
  unfold contents. rewrite lookup_total_app_r by lia. f_equal. lia.
Qed.

Lemma bucket_app_old (h ext : Heap) (m : BucketMap) k :
  Forall (λ e, e.2 < length h) m → bucket (h ++ ext) m k = bucket h m k.
Proof.
  intros Hval. unfold bucket.
  destruct (map_get k m) as [r|] eqn:Hr; simpl; [|done].
  apply contents_app_old. eauto using map_get_valid.
Qed.

(** The loop allocates one fresh set per index, holding the cards of the
    bucket of that index. *)
Lemma toBucketSets_loop_spec (h0 : Heap) (m : BucketMap) indices :
  Forall (λ e, e.2 < length h0) m →
  ∀ result ext,
    toBucketSets_loop m indices result (h0 ++ ext) =
      (Normal (result ++ seq (length (h0 ++ ext)) (length indices)),
       (h0 ++ ext) ++ (bucket h0 m <$> indices)).
Proof.
  intros Hval. induction indices as [|i indices IH]; intros result ext.
  - simpl. by rewrite !app_nil_r.
  - cbn [toBucketSets_loop]. unfold mbind, M_bind.
    assert ((if map_has i m then newSetFrom (map_get i m) else newSet ∅)
              (h0 ++ ext)
            = (Normal (length (h0 ++ ext)), (h0 ++ ext) ++ [bucket h0 m i]))
      as ->.
    { destruct (map_has i m) eqn:Hhas.
      - unfold newSetFrom, newSet. do 2 f_equal.
        apply map_has_true in Hhas as [s Hs].
        rewrite (bucket_get h0 m i s Hs), Hs. simpl.
        f_equal. apply contents_app_old. eauto using map_get_valid.
      - apply map_has_false in Hhas.
        unfold newSet. by rewrite (bucket_absent h0 m i Hhas). }
    rewrite <- (assoc_L (++) h0), IH.
    rewrite <- !(assoc_L (++)). simpl.
    assert (length (h0 ++ ext ++ [bucket h0 m i]) = S (length (h0 ++ ext)))
      as -> by (rewrite !length_app; simpl; lia).
    done.
Qed.

Lemma toBucketSets_spec (h : Heap) (m : BucketMap) :
  Forall (λ e, e.2 < length h) m →
  toBucketSets m h =
    let n := if decide (m = []) then 0 else S (max_occupied m) in
    (Normal (seq (length h) n), h ++ (bucket h m <$> seq 0 n)).
Proof.
  intros Hval. unfold toBucketSets, map_size.
  destruct m as [|e m].
  - simpl. unfold mret, M_ret. by rewrite app_nil_r.
  - rewrite decide_False by done. rewrite decide_False by done.
    rewrite Math_max_nonempty by done. cbn zeta.
    pose proof (toBucketSets_loop_spec h (e :: m)
                  (seq 0 (S (max_occupied (e :: m)))) Hval [] []) as Hloop.
    rewrite !app_nil_r, length_seq in Hloop. exact Hloop.
Qed.

Lemma sum_list_seq_single (g : nat → nat) k a n :
  k < n → g k = 0 →
  sum_list ((λ i, if decide (k = i) then a else g i) <$> seq 0 n)
  = a + sum_list (g <$> seq 0 n).
Proof.
  intros Hk Hg. induction n as [|n IH]; [lia|].
  rewrite seq_S, !fmap_app, !sum_list_with_app. simpl.
  destruct (decide (k = n)) as [->|Hne].
  - assert (sum_list ((λ i, if decide (n = i) then a else g i) <$> seq 0 n)
            = sum_list (g <$> seq 0 n)) as ->.
    { f_equal. apply list_fmap_ext. intros j i Hi.
      apply lookup_seq in Hi as [-> ?]. rewrite decide_False by lia. done. }
    lia.
  - rewrite IH by lia. lia.
Qed.

(** Summing the buckets over a range of numbers that covers the keys
    counts every set of the mapping once. *)
Lemma sum_buckets (h : Heap) (m : BucketMap) n :
  NoDup (map_keys m) → (∀ k, k ∈ map_keys m → k < n) →
  sum_list ((λ i, size (bucket h m i)) <$> seq 0 n) = sum_sizes h m.
Proof.
  unfold sum_sizes, map_keys. induction m as [|[k s] m IH]; intros Hnd Hlt.
  - rewrite fmap_nil. cbn [sum_list_with].
    induction (seq 0 n) as [|i l IHl]; [done|].
    rewrite fmap_cons. cbn [sum_list_with]. rewrite IHl.
    by rewrite bucket_absent, size_empty.
  - rewrite fmap_cons in Hnd. apply NoDup_cons in Hnd as [Hk Hnd].
    rewrite fmap_cons. simpl.
    rewrite <- IH; [|done|intros k' Hk'; apply Hlt; rewrite fmap_cons; by right].
    rewrite <- (sum_list_seq_single (λ i, size (bucket h m i)) k).
    + f_equal. apply list_fmap_ext. intros j i _. unfold bucket. simpl.
      by case_decide.
    + apply Hlt. rewrite fmap_cons. left.
    + rewrite bucket_absent; [apply size_empty|]. by apply map_get_None.
Qed.

Lemma sum_sizes_dense_fresh (h ext : Heap) :
  sum_sizes_dense (h ++ ext) (seq (length h) (length ext))
  = sum_list (size <$> ext).
Proof.
  unfold sum_sizes_dense. f_equal. apply list_eq. intros j.
  rewrite !list_lookup_fmap.
  destruct (decide (j < length ext)) as [Hj|Hj].
  - rewrite lookup_seq_lt by done. simpl. rewrite contents_app_new.
    by rewrite (list_lookup_total_alt ext), (list_lookup_lookup_total_lt ext j).
  - rewrite lookup_seq_ge, lookup_ge_None_2 by lia. done.
Qed.

(** * The claims about [toBucketSets] *)

Lemma mapX2_object : MapObject heapX mapX2.
Proof. split; [apply NoDup_singleton|]. repeat constructor. Qed.

(** C6: [toBucketSets] completes normally; for the empty mapping it
    returns the empty array, and otherwise an array of length (largest
    bucket number present) + 1.  Each element is a fresh [Set] object,
    none of them shared with the mapping or with another element: it is
    empty at an index the mapping does not have and holds the cards of
    the mapping's set at an index it has.  The sets of the mapping are
    left as they were.  For [{2: {cardX}}] the result is
    [[{}, {}, {cardX}]]. *)
Theorem toBucketSets_dense :
  (∀ (h : Heap) (m : BucketMap),
     MapObject h m →
     ∃ res h',
       toBucketSets m h = (Normal res, h') ∧
       (m = [] → res = []) ∧
       (m ≠ [] → length res = max_occupied m + 1) ∧
       (∀ i r, res !! i = Some r →
          (r ∉ map_values m) ∧
          (map_get i m = None → contents h' r = ∅) ∧
          (∀ s, map_get i m = Some s → contents h' r = contents h s)) ∧
       NoDup res ∧
       (∀ s, s < length h → contents h' s = contents h s)) ∧
  (∃ res h',
     toBucketSets mapX2 heapX = (Normal res, h') ∧
     contents h' <$> res = [∅; ∅; {[cardX]}]).
Proof.
  split.
  - intros h m [Hnd Hval].
    eexists _, _. split; [by apply toBucketSets_spec|]. cbn zeta.
    set (n := if decide (m = []) then 0 else S (max_occupied m)).
    split_and!.
    + intros ->. done.
    + intros Hm. rewrite length_seq. unfold n. rewrite decide_False by done. lia.
    + intros i r Hi. apply lookup_seq in Hi as [-> Hi].
      assert (contents (h ++ (bucket h m <$> seq 0 n)) (length h + i)
              = bucket h m i) as Hcopy.
      { rewrite contents_app_new, list_lookup_total_alt, list_lookup_fmap.
        by rewrite lookup_seq_lt. }
      split_and!.
      * unfold map_values. intros Hin.
        apply list_elem_of_fmap in Hin as ([k s] & Heq & Hin). simpl in Heq.
        rewrite Forall_forall in Hval. specialize (Hval _ Hin). simpl in Hval.
        lia.
      * intros Hnone. by rewrite Hcopy, bucket_absent.
      * intros s Hs. by rewrite Hcopy, (bucket_get h m i s).
    + apply NoDup_seq.
    + intros s Hs. by apply contents_app_old.
  - eexists _, _. split; [apply toBucketSets_spec; apply mapX2_object|].
    reflexivity.
Qed.

Lemma toBucketSets_dense_witness :
  MapObject heapX mapX2 ∧
  ∃ res h',
    toBucketSets mapX2 heapX = (Normal res, h') ∧
    (mapX2 = [] → res = []) ∧
    (mapX2 ≠ [] → length res = max_occupied mapX2 + 1) ∧
    (∀ i r, res !! i = Some r →
       (r ∉ map_values mapX2) ∧
       (map_get i mapX2 = None → contents h' r = ∅) ∧
       (∀ s, map_get i mapX2 = Some s → contents h' r = contents heapX s)) ∧
    NoDup res ∧
    (∀ s, s < length heapX → contents h' s = contents heapX s).
Proof.
  split; [apply mapX2_object|].
  exact (proj1 toBucketSets_dense heapX mapX2 mapX2_object).
Defined.

(** C9: the sizes of the sets of [toBucketSets(m)] add up to the same
    total as the sizes of the sets of [m]. *)
Theorem toBucketSets_preserves_total (h : Heap) (m : BucketMap) :
  MapObject h m →
  ∃ res h',
    toBucketSets m h = (Normal res, h') ∧
    sum_sizes_dense h' res = sum_sizes h m.
Proof.
  intros [Hnd Hval].
  eexists _, _. split; [by apply toBucketSets_spec|]. cbn zeta.
  set (n := if decide (m = []) then 0 else S (max_occupied m)).
  set (ext := bucket h m <$> seq 0 n).
  assert (length ext = n) as Hlen by (unfold ext; by rewrite length_fmap, length_seq).
  rewrite <- Hlen at 1. rewrite sum_sizes_dense_fresh.
  unfold ext. rewrite <- list_fmap_compose.
  apply sum_buckets; [done|].
  intros k Hk. unfold n. destruct (decide (m = [])) as [->|Hm].
  - by apply elem_of_nil in Hk.
  - apply max_list_elem_of_le in Hk. unfold max_occupied. lia.
Qed.

Lemma toBucketSets_preserves_total_witness :
  MapObject heapX mapX2 ∧
  ∃ res h',
    toBucketSets mapX2 heapX = (Normal res, h') ∧
    sum_sizes_dense h' res = sum_sizes heapX mapX2.
Proof.
  split; [apply mapX2_object|].
  exact (toBucketSets_preserves_total heapX mapX2 mapX2_object).
Defined.

(** ** [practice] *)

Lemma insert_last (h : Heap) X Y : <[length h := Y]> (h ++ [X]) = h ++ [Y].
Proof. rewrite insert_app_r_alt by lia. by rewrite Nat.sub_diag. Qed.

Lemma contents_last (h : Heap) X : contents (h ++ [X]) (length h) = X.
Proof. rewrite contents_alloc. by rewrite decide_True. Qed.

Lemma forEach_setAdd (h : Heap) X cards :
  forEach cards (λ card, setAdd (length h) card) (h ++ [X])
  = (Normal (), h ++ [X ∪ list_to_set cards]).
Proof.
  revert X. induction cards as [|c cards IH]; intros X.
  - simpl. unfold mret, M_ret. by rewrite (right_id_L ∅ (∪)).
  - cbn [forEach]. unfold mbind, M_bind, setAdd at 1.
    rewrite contents_last, insert_last, IH.
    by rewrite list_to_set_cons, (assoc_L (∪)).
Qed.

Lemma practice_loop (h : Heap) (bs : list nat) day indices X :
  ArrayObject h bs →
  forEach indices (λ i,
    if decide (i = 5) then mret ()
    else
      if decide (Z.rem day (2 ^ Z.of_nat i) = 0%Z) then
        match bs !! i with
        | Some s =>
            cards ← setElements s;
            forEach cards (λ card, setAdd (length h) card)
        | None => mret ()
        end
      else mret ()) (h ++ [X])
  = (Normal (), h ++ [X ∪ due_cards h bs day indices]).
Proof.
  intros Hbs. unfold due_cards. revert X.
  induction indices as [|i indices IH]; intros X.
  - simpl. unfold mret, M_ret. by rewrite (right_id_L ∅ (∪)).
  - cbn [forEach]. unfold mbind at 1, M_bind at 1.
    rewrite fmap_cons, union_list_cons.
    destruct (decide (i = 5)) as [Hi|Hi].
    { unfold mret at 1, M_ret at 1. rewrite IH.
      by rewrite (left_id_L ∅ (∪)). }
    destruct (decide (Z.rem day (2 ^ Z.of_nat i) = 0%Z)) as [Hdue|Hdue].
    2:{ unfold mret at 1, M_ret at 1. rewrite IH.
        by rewrite (left_id_L ∅ (∪)). }
    destruct (bs !! i) as [s|] eqn:Hs; simpl.
    2:{ unfold mret at 1, M_ret at 1. rewrite IH.
        by rewrite (left_id_L ∅ (∪)). }
    assert (s < length h) as Hsv.
    { unfold ArrayObject in Hbs. rewrite Forall_forall in Hbs.
      apply Hbs. by eapply list_elem_of_lookup_2. }
    unfold mbind at 1, M_bind at 1, setElements at 1.
    rewrite forEach_setAdd, IH.
    rewrite contents_alloc_old by done.
    by rewrite list_to_set_elements_L, (assoc_L (∪)).
Qed.

Lemma practice_spec (h : Heap) (bs : list nat) day :
  ArrayObject h bs →
  practice bs day h
  = (Normal (length h), h ++ [due_cards h bs day (seq 0 (length bs))]).
Proof.
  intros Hbs. unfold practice. unfold mbind at 1, M_bind at 1, newSet at 1.
  unfold mbind at 1, M_bind at 1. rewrite (practice_loop h bs day _ ∅ Hbs).
  unfold mret, M_ret. by rewrite (left_id_L ∅ (∪)).
Qed.

Lemma elem_of_due_cards (h : Heap) (bs : list nat) day c :
  c ∈ due_cards h bs day (seq 0 (length bs)) ↔
  ∃ i s, bs !! i = Some s ∧ i ≠ 5 ∧
         Z.rem day (2 ^ Z.of_nat i) = 0%Z ∧ c ∈ contents h s.
Proof.
  unfold due_cards. rewrite elem_of_union_list. split.
  - intros (X & HX & Hc). apply list_elem_of_fmap in HX as (i & -> & Hi).
    destruct (decide (i = 5)); [set_solver|].
    destruct (decide (Z.rem day (2 ^ Z.of_nat i) = 0%Z)); [|set_solver].
    destruct (bs !! i) as [s|] eqn:Hs; simpl in Hc; [|set_solver].
    by exists i, s.
  - intros (i & s & Hs & Hi & Hdue & Hc).
    eexists. split.
    + apply list_elem_of_fmap. exists i. split; [done|].
      apply elem_of_seq. apply lookup_lt_Some in Hs. lia.
    + rewrite decide_False, decide_True, Hs by done. done.
Qed.

(** * The claim about [practice] *)

Lemma bucketsSix_object : ArrayObject heapOverlap bucketsSix.
Proof. repeat constructor. Qed.

Lemma bucketsSix_retired_object : ArrayObject heapRetired bucketsSix.
Proof. repeat constructor. Qed.

Lemma heapRetired_elem c s :
  c ∈ contents heapRetired s → s = 0 ∨ s = 5.
Proof.
  intros Hc.
  do 6 (destruct s as [|s]; [first [by left|by right|set_solver]|]).
  unfold contents, heapRetired in Hc. simpl in Hc. set_solver.
Qed.

Lemma heapRetired_cards c :
  (c ∈ contents heapRetired 0 → c = cardY) ∧
  (c ∈ contents heapRetired 5 → c = cardX).
Proof.
  split; intros Hc; unfold contents, heapRetired in Hc; simpl in Hc;
    by apply elem_of_singleton in Hc.
Qed.

Lemma bucketsSix_lookup i s : bucketsSix !! i = Some s → s = i.
Proof.
  intros Hi. do 6 (destruct i as [|i]; [by simplify_eq/=|]). done.
Qed.

Lemma bucketsSix_retired_disjoint : disjoint_buckets heapRetired bucketsSix.
Proof.
  intros c i j si sj Hi Hj Hci Hcj.
  apply bucketsSix_lookup in Hi as ->. apply bucketsSix_lookup in Hj as ->.
  destruct (heapRetired_cards c) as [H0 H5].
  destruct (heapRetired_elem c i Hci) as [->| ->],
           (heapRetired_elem c j Hcj) as [->| ->]; try done.
  - specialize (H0 Hci). specialize (H5 Hcj). by simplify_eq.
  - specialize (H0 Hcj). specialize (H5 Hci). by simplify_eq.
Qed.

(** C4: on a day [day >= 0], [practice] completes normally for every
    array, also an empty one or one with fewer than six entries, and
    returns a fresh set whose cards are those of the buckets [i] of the
    array with [i ≠ 5] and [day mod 2^i = 0]; the sets of the array are
    left as they were.  In particular [practice(bs, 0)] has every card
    of bucket 0, and for a dense array, in which a card is in at most
    one bucket, it has no card of the retired bucket 5 (which an array
    has when it has at least six entries). *)
Theorem practice_schedule (h : Heap) (bs : list nat) (day : Z) :
  ArrayObject h bs → (0 ≤ day)%Z →
  (∃ res h',
     practice bs day h = (Normal res, h') ∧
     (∀ c, c ∈ contents h' res ↔
           ∃ i s, bs !! i = Some s ∧ i ≠ 5 ∧
                  (day `mod` 2 ^ Z.of_nat i = 0)%Z ∧ c ∈ contents h s) ∧
     (∀ s, s < length h → contents h' s = contents h s)) ∧
  (∃ res0 h0,
     practice bs 0 h = (Normal res0, h0) ∧
     (∀ s0, bs !! 0 = Some s0 → contents h s0 ⊆ contents h0 res0) ∧
     (disjoint_buckets h bs →
      ∀ s5 c, bs !! 5 = Some s5 → c ∈ contents h s5 → c ∉ contents h0 res0)).
Proof.
  intros Hbs Hday.
  assert (∀ d, (0 ≤ d)%Z →
            ∀ c, c ∈ contents (h ++ [due_cards h bs d (seq 0 (length bs))])
                        (length h) ↔
                 ∃ i s, bs !! i = Some s ∧ i ≠ 5 ∧
                        (d `mod` 2 ^ Z.of_nat i = 0)%Z ∧ c ∈ contents h s)
    as Hres.
  { intros d Hd c. rewrite contents_last, elem_of_due_cards.
    split; intros (i & s & Hs & Hi & Hdue & Hc); exists i, s;
      (split_and!; [done|done| |done]).
    - rewrite <- Z.rem_mod_nonneg; [done|done|]. apply Z.pow_pos_nonneg; lia.
    - rewrite Z.rem_mod_nonneg; [done|done|]. apply Z.pow_pos_nonneg; lia. }
  split.
  - eexists _, _. split; [by apply practice_spec|]. split.
    + by apply Hres.
    + intros s Hs. by apply contents_alloc_old.
  - eexists _, _. split; [by apply practice_spec|]. split.
    + intros s0 Hs0 c Hc. apply Hres; [done|]. exists 0, s0.
      split_and!; [done|done|by rewrite Z.mod_0_l|done].
    + intros Hdisj s5 c Hs5 Hc Hin.
      apply Hres in Hin as (i & s & Hs & Hi & _ & Hcs); [|done].
      apply Hi. by apply (Hdisj c i 5 s s5).
Qed.

Lemma practice_schedule_witness :
  ArrayObject heapRetired bucketsSix ∧ (0 ≤ 0)%Z ∧
  disjoint_buckets heapRetired bucketsSix ∧
  bucketsSix !! 5 = Some 5 ∧ cardX ∈ contents heapRetired 5 ∧
  (∃ res h',
     practice bucketsSix 0 heapRetired = (Normal res, h') ∧
     (∀ c, c ∈ contents h' res ↔
           ∃ i s, bucketsSix !! i = Some s ∧ i ≠ 5 ∧
                  (0 `mod` 2 ^ Z.of_nat i = 0)%Z ∧ c ∈ contents heapRetired s) ∧
     (∀ s, s < length heapRetired → contents h' s = contents heapRetired s)) ∧
  (∃ res0 h0,
     practice bucketsSix 0 heapRetired = (Normal res0, h0) ∧
     (∀ s0, bucketsSix !! 0 = Some s0 →
            contents heapRetired s0 ⊆ contents h0 res0) ∧
     cardX ∉ contents h0 res0).
Proof.
  assert (0 ≤ 0)%Z as Hday by lia.
  assert (bucketsSix !! 5 = Some 5) as Hs5 by reflexivity.
  assert (cardX ∈ contents heapRetired 5) as Hc by (by apply elem_of_singleton).
  split_and!;
    [apply bucketsSix_retired_object|exact Hday
    |apply bucketsSix_retired_disjoint|exact Hs5|exact Hc|..].
  - exact (proj1 (practice_schedule heapRetired bucketsSix 0
                    bucketsSix_retired_object Hday)).
  - destruct (proj2 (practice_schedule heapRetired bucketsSix 0
                       bucketsSix_retired_object Hday))
      as (res0 & h0 & Hp & Hzero & Hret).
    exists res0, h0. split_and!; [exact Hp|exact Hzero|].
    exact (Hret bucketsSix_retired_disjoint 5 cardX Hs5 Hc).
Defined.

(** ** [getHint] *)

Lemma replace_whitespace_strip (s : JSString) :
  replace_whitespace s = strip_whitespace s.
Proof.
  unfold replace_whitespace, strip_whitespace.
  apply list_filter_iff. intros u. destruct (is_whitespace u); naive_solver.
Qed.

Lemma repeat_str_unit (u : N) n : repeat_str [u] n = replicate n u.
Proof.
  unfold repeat_str. induction n as [|n IH]; [done|].
  simpl. by rewrite IH.
Qed.

Lemma fmap_const_replicate {A B} (b : B) (l : list A) :
  (λ _, b) <$> l = replicate (length l) b.
Proof. induction l as [|a l IH]; [done|]. by rewrite fmap_cons, IH. Qed.

Lemma getHint_language (c : Flashcard) :
  str "language" ∈ tags c → getHint c = masked (back c).
Proof.
  intros Htag. unfold getHint, masked.
  rewrite bool_decide_eq_true_2 by done. cbn zeta.
  rewrite replace_whitespace_strip. unfold split_units.
  destruct (strip_whitespace (back c)) as [|u rest]; [done|].
  rewrite decide_False by done.
  rewrite fmap_cons, length_cons, length_fmap. simpl.
  rewrite Nat.sub_0_r. change (str "_") with [95%N].
  by rewrite repeat_str_unit, fmap_const_replicate.
Qed.

Lemma strip_all_whitespace (s : JSString) :
  Forall (λ u, is_whitespace u) s → strip_whitespace s = [].
Proof.
  unfold strip_whitespace. induction 1 as [|u s Hu _ IH]; [done|].
  rewrite filter_cons. by rewrite decide_False by naive_solver.
Qed.

(** * The claim about [getHint] *)

(** C8: for a card tagged [language], [getHint] returns the back text
    with the whitespace stripped, its first remaining character shown
    and the mask character in place of every other one, which is the
    empty string when the back text is empty or all whitespace; for a
    card without that tag it returns the stored hint as it is.  A
    language card with back text [test] yields [t___]. *)
Theorem getHint_spec :
  (∀ c, str "language" ∈ tags c → getHint c = masked (back c)) ∧
  (∀ c, str "language" ∈ tags c →
        Forall (λ u, is_whitespace u) (back c) → getHint c = []) ∧
  (∀ c, str "language" ∉ tags c → getHint c = hint c) ∧
  getHint cardTest = str "t___".
Proof.
  split_and!.
  - apply getHint_language.
  - intros c Htag Hws. rewrite getHint_language by done.
    unfold masked. by rewrite strip_all_whitespace.
  - intros c Htag. unfold getHint. by rewrite bool_decide_eq_false_2.
  - reflexivity.
Qed.

Lemma getHint_spec_witness :
  str "language" ∈ tags cardTest ∧ getHint cardTest = masked (back cardTest).
Proof.
  assert (str "language" ∈ tags cardTest) as Htag by left.
  split; [exact Htag|].
  exact (proj1 getHint_spec cardTest Htag).
Defined.

(** ** [computeProgress] *)

Lemma foldl_sizes (h : Heap) (m : BucketMap) a :
  foldl (λ sum set, sum + size (contents h set)) a (map_values m)
  = a + sum_sizes h m.
Proof.
  unfold map_values, sum_sizes. revert a.
  induction m as [|[k s] m IH]; intros a; [simpl; lia|].
  rewrite !fmap_cons. cbn [foldl sum_list_with]. rewrite IH. simpl. lia.
Qed.

Lemma foldl_push {A} (f : nat → A) (l : list nat) acc :
  foldl (λ counts i, counts ++ [f i]) acc l = acc ++ (f <$> l).
Proof.
  revert acc. induction l as [|i l IH]; intros acc; simpl.
  - by rewrite app_nil_r.
  - rewrite IH. by rewrite <- (assoc_L (++)).
Qed.

Lemma foldl_plus (l : list nat) a : foldl (λ a b, a + b) a l = a + sum_list l.
Proof.
  revert a. induction l as [|x l IH]; intros a; [simpl; lia|].
  cbn [foldl sum_list_with]. rewrite IH. unfold id. lia.
Qed.

Lemma max_list_snoc_zero (l : list nat) : max_list (l ++ [0]) = max_list l.
Proof. induction l as [|x l IH]; [done|]. simpl. by rewrite IH. Qed.

Lemma times_practiced_cons c e history :
  times_practiced c (e :: history)
  = (if decide (card e = c) then 1 else 0) + times_practiced c history.
Proof.
  unfold times_practiced. rewrite filter_cons. by case_decide.
Qed.

Lemma times_practiced_zero c history :
  times_practiced c history = 0 ↔ c ∉ card <$> history.
Proof.
  induction history as [|e history IH].
  - split; [intros _; apply not_elem_of_nil|done].
  - rewrite times_practiced_cons, fmap_cons, not_elem_of_cons.
    case_decide; [naive_solver lia|]. rewrite <- IH. naive_solver lia.
Qed.

Lemma count_fold_get history :
  ∀ (pc : list (Flashcard * nat)) c,
    map_get c
      (foldl (λ practiceCounts entry,
                map_set (card entry)
                  (default 0 (map_get (card entry) practiceCounts) + 1)
                  practiceCounts) pc history)
    = if decide (times_practiced c history = 0) then map_get c pc
      else Some (default 0 (map_get c pc) + times_practiced c history).
Proof.
  induction history as [|e history IH]; intros pc c; [done|].
  cbn [foldl]. rewrite IH, times_practiced_cons, !map_get_set.
  destruct (decide (c = card e)) as [->|Hne].
  - rewrite (decide_True (P := card e = card e)) by done.
    destruct (decide (times_practiced (card e) history = 0)) as [->|?].
    + rewrite decide_False by lia. simpl. f_equal; lia.
    + rewrite decide_False by lia. simpl. f_equal; lia.
  - rewrite (decide_False (P := card e = c)) by done. done.
Qed.

Lemma count_fold_NoDup history :
  ∀ pc : list (Flashcard * nat),
    NoDup (map_keys pc) →
    NoDup (map_keys
      (foldl (λ practiceCounts entry,
                map_set (card entry)
                  (default 0 (map_get (card entry) practiceCounts) + 1)
                  practiceCounts) pc history)).
Proof.
  induction history as [|e history IH]; intros pc Hnd; [done|].
  cbn [foldl]. by apply IH, map_set_NoDup.
Qed.

Lemma count_practices_get history c :
  map_get c (count_practices history)
  = if decide (times_practiced c history = 0) then None
    else Some (times_practiced c history).
Proof. unfold count_practices. by rewrite count_fold_get. Qed.

Lemma count_practices_sum history :
  sum_list (map_values (count_practices history)) = practices history.
Proof.
  assert (NoDup (map_keys (count_practices history))) as Hnd.
  { apply count_fold_NoDup. constructor. }
  assert (map_values (count_practices history)
          = (λ c, times_practiced c history) <$> map_keys (count_practices history))
    as ->.
  { unfold map_values, map_keys. rewrite <- list_fmap_compose.
    apply list_fmap_ext. intros i [c n] Hi. simpl.
    apply list_elem_of_lookup_2 in Hi.
    apply (elem_map_get _ _ _ Hnd) in Hi.
    rewrite count_practices_get in Hi. by case_decide; simplify_eq. }
  unfold practices.
  assert (map_keys (count_practices history) ≡ₚ distinct_cards history) as ->;
    [|done].
  apply NoDup_Permutation; [done|apply NoDup_remove_dups|].
  intros c. unfold distinct_cards. rewrite elem_of_remove_dups.
  destruct (decide (c ∈ card <$> history)) as [Hin|Hnin].
  - split; [done|]. intros _.
    destruct (decide (c ∈ map_keys (count_practices history))) as [|Hno]; [done|].
    apply map_get_None in Hno. rewrite count_practices_get in Hno.
    case_decide as Hz; [|done]. by apply times_practiced_zero in Hz.
  - split; [|done]. intros Hk. exfalso.
    apply times_practiced_zero in Hnin.
    assert (map_get c (count_practices history) = None) as Hno.
    { rewrite count_practices_get. by rewrite decide_True. }
    by apply map_get_None in Hno.
Qed.

Lemma computeProgress_nonempty (h : Heap) (m : BucketMap) history :
  history ≠ [] →
  computeProgress m history h =
    (Normal (mkProgress (sum_sizes h m) (dense_counts h m)
       (if decide (sum_sizes h m = 0) then PrimFloat.zero
        else PrimFloat.div (number (practices history))
                           (number (sum_sizes h m)))), h).
Proof.
  intros Hne. unfold computeProgress.
  rewrite decide_False by (by destruct history).
  rewrite foldl_sizes, foldl_push, foldl_plus, count_practices_sum.
  rewrite Math_max_nonempty by (by destruct (map_keys m)).
  rewrite max_list_snoc_zero. cbn [from_option id app].
  do 3 f_equal. unfold dense_counts, max_occupied.
  apply list_fmap_ext. intros j i _. unfold bucket.
  destruct (map_get i m); [done|]. cbn [from_option].
  symmetry. apply size_empty.
Qed.

(** * The claim about [computeProgress] *)

(** C5: [computeProgress] throws its error exactly when the history is
    empty.  For a non-empty history it returns, without touching any
    object, the total of the sizes of the sets of the mapping, the counts
    of the buckets from 0 to the largest bucket number present (the one
    count of bucket 0 for the empty mapping), and as average the sum over
    the distinct cards of the history of the number of times each occurs
    in it, divided by the total, or 0 when the total is 0.  For
    [{0: {cardX}}] and one trial of [cardX] this is total 1, counts [[1]]
    and average 1. *)
Theorem computeProgress_spec :
  (∀ (h : Heap) (m : BucketMap),
     computeProgress m [] h = (Throw (str "History must not be empty"), h)) ∧
  (∀ (h : Heap) (m : BucketMap) history,
     history ≠ [] →
     computeProgress m history h =
       (Normal (mkProgress (sum_sizes h m) (dense_counts h m)
          (if decide (sum_sizes h m = 0) then PrimFloat.zero
           else PrimFloat.div (number (practices history))
                              (number (sum_sizes h m)))), h)) ∧
  (∀ (h : Heap) (m : BucketMap) history,
     (∃ msg, (computeProgress m history h).1 = Throw msg) ↔ history = []) ∧
  (∀ h : Heap, dense_counts h [] = [0]) ∧
  computeProgress mapX0 historyX heapX
  = (Normal (mkProgress 1 [1] PrimFloat.one), heapX).
Proof.
  split_and!.
  - done.
  - apply computeProgress_nonempty.
  - intros h m history. split.
    + intros [msg Hmsg]. destruct history as [|e history]; [done|].
      by rewrite computeProgress_nonempty in Hmsg.
    + intros ->. by eexists.
  - intros h. reflexivity.
  - rewrite computeProgress_nonempty by done.
    assert (sum_sizes heapX mapX0 = 1) as -> by (by vm_compute).
    assert (dense_counts heapX mapX0 = [1]) as -> by (by vm_compute).
    assert (practices historyX = 1) as -> by (by vm_compute).
    reflexivity.
Qed.

Lemma computeProgress_spec_witness :
  historyX ≠ [] ∧
  computeProgress mapX0 historyX heapX =
    (Normal (mkProgress (sum_sizes heapX mapX0) (dense_counts heapX mapX0)
       (if decide (sum_sizes heapX mapX0 = 0) then PrimFloat.zero
        else PrimFloat.div (number (practices historyX))
                           (number (sum_sizes heapX mapX0)))), heapX).
Proof.
  assert (historyX ≠ []) as Hne by discriminate.
  split; [exact Hne|].
  exact (proj1 (proj2 computeProgress_spec) heapX mapX0 historyX Hne).
Defined.

(** * Further properties *)

(** ** [getBucketRange] *)

Lemma size_pos_nonempty (X : gset Flashcard) : 0 < size X ↔ X ≠ ∅.
Proof.
  split.
  - intros Hpos ->. rewrite size_empty in Hpos. lia.
  - intros Hne. apply set_choose_L in Hne as [x Hx].
    assert (size X ≠ 0); [|lia].
    intros Hz. apply size_empty_inv in Hz. set_solver.
Qed.

Lemma getBucketRange_scan_spec (h : Heap) bs :
  ∀ index nonEmpty,
    getBucketRange_scan bs index nonEmpty h
    = (Normal (nonEmpty ++ occupied_from h bs index), h).
Proof.
  induction bs as [|s bs IH]; intros index nonEmpty.
  - simpl. unfold mret, M_ret. by rewrite app_nil_r.
  - cbn [getBucketRange_scan occupied_from].
    unfold mbind, M_bind, setSize at 1. rewrite IH.
    destruct (decide (0 < size (contents h s))) as [Hpos|Hz].
    + rewrite decide_True by by apply size_pos_nonempty.
      by rewrite <- (assoc_L (++)).
    + rewrite decide_False; [done|]. intros Hne. by apply Hz, size_pos_nonempty.
Qed.

Lemma elem_of_occupied_from (h : Heap) bs index i :
  i ∈ occupied_from h bs index ↔
  ∃ j s, i = index + j ∧ bs !! j = Some s ∧ contents h s ≠ ∅.
Proof.
  revert index. induction bs as [|s bs IH]; intros index.
  - simpl. split; [by intros ?%elem_of_nil|]. by intros (j & s & _ & ? & _).
  - cbn [occupied_from]. rewrite elem_of_app, IH. split.
    + intros [Hhd|(j & s' & -> & Hj & Hne)].
      * destruct (decide (contents h s ≠ ∅)) as [Hne|]; [|by apply elem_of_nil in Hhd].
        apply list_elem_of_singleton in Hhd as ->.
        exists 0, s. split_and!; [lia|done|done].
      * exists (S j), s'. split_and!; [lia|done|done].
    + intros (j & s' & -> & Hj & Hne). destruct j as [|j].
      * left. simpl in Hj. simplify_eq. rewrite decide_True by done.
        rewrite Nat.add_0_r. by apply list_elem_of_singleton.
      * right. exists j, s'. split_and!; [lia|done|done].
Qed.

Lemma Math_min_nonempty (xs : list nat) :
  xs ≠ [] →
  ∃ lo, Math_min xs = Some lo ∧ lo ∈ xs ∧ ∀ x, x ∈ xs → lo ≤ x.
Proof.
  destruct xs as [|x xs]; [done|]. intros _. simpl.
  eexists. split; [done|]. revert x.
  induction xs as [|y xs IH]; intros x.
  - simpl. split; [left|]. by intros ? ->%list_elem_of_singleton.
  - cbn [foldl]. destruct (IH (x `min` y)) as [Hin Hle]. split.
    + apply elem_of_cons in Hin as [Heq|Hin].
      * rewrite Heq. destruct (Nat.min_spec x y) as [[_ ->]|[_ ->]];
          [left|right; left].
      * do 2 right. done.
    + intros z Hz.
      assert (foldl Nat.min (x `min` y) xs ≤ x `min` y) by (apply Hle; left).
      apply elem_of_cons in Hz as [->|Hz]; [lia|].
      apply elem_of_cons in Hz as [->|Hz]; [lia|].
      apply Hle. by right.
Qed.

Lemma getBucketRange_spec (h : Heap) bs :
  getBucketRange bs h =
    (Normal (if decide (occupied_from h bs 0 = []) then None
             else Some (mkBucketRange
                          (default 0 (Math_min (occupied_from h bs 0)))
                          (default 0 (Math_max (occupied_from h bs 0))))),
     h).
Proof.
  unfold getBucketRange. unfold mbind, M_bind.
  rewrite getBucketRange_scan_spec. cbn [app].
  destruct (occupied_from h bs 0) as [|i l]; [done|].
  rewrite decide_False by done. by rewrite decide_False.
Qed.

(** X1: [getBucketRange] completes normally on every array, reads the
    sets without changing any, and returns [undefined] exactly when no
    set of the array holds a card, which includes the empty array. *)
Theorem getBucketRange_undefined (h : Heap) (bs : list nat) :
  ∃ r,
    getBucketRange bs h = (Normal r, h) ∧
    (r = None ↔ ∀ s, s ∈ bs → contents h s = ∅).
Proof.
  eexists. split; [apply getBucketRange_spec|].
  destruct (decide (occupied_from h bs 0 = [])) as [Hnil|Hne].
  - split; [|done]. intros _ s Hs.
    apply list_elem_of_lookup in Hs as [j Hj].
    destruct (decide (contents h s = ∅)) as [|Hs]; [done|].
    assert (0 + j ∈ occupied_from h bs 0) as Hin.
    { apply elem_of_occupied_from. by exists j, s. }
    rewrite Hnil in Hin. by apply elem_of_nil in Hin.
  - split; [done|]. intros Hall. destruct Hne.
    destruct (occupied_from h bs 0) as [|i l] eqn:Hocc; [done|].
    assert (i ∈ occupied_from h bs 0) as Hin by (rewrite Hocc; left).
    apply elem_of_occupied_from in Hin as (j & s & _ & Hj & Hs).
    destruct Hs. apply Hall. by eapply list_elem_of_lookup_2.
Qed.

Lemma getBucketRange_undefined_witness :
  ∃ r,
    getBucketRange [1; 1] [{[cardX]}; ∅] = (Normal r, [{[cardX]}; ∅]) ∧
    (r = None ↔ ∀ s, s ∈ [1; 1] → contents [{[cardX]}; ∅] s = ∅).
Proof. exact (getBucketRange_undefined [{[cardX]}; ∅] [1; 1]). Defined.

Lemma getBucketRange_range (h : Heap) (bs : list nat) :
  occupied_from h bs 0 ≠ [] →
  ∃ rg,
    getBucketRange bs h = (Normal (Some rg), h) ∧
    (∃ s, bs !! minBucket rg = Some s ∧ contents h s ≠ ∅) ∧
    (∃ s, bs !! maxBucket rg = Some s ∧ contents h s ≠ ∅) ∧
    (∀ i s, bs !! i = Some s → contents h s ≠ ∅ →
            minBucket rg ≤ i ≤ maxBucket rg).
Proof.
  intros Hne. eexists. split.
  { rewrite getBucketRange_spec. by rewrite decide_False. }
  destruct (Math_min_nonempty _ Hne) as (lo & -> & Hlo & Hle).
  rewrite (Math_max_nonempty _ Hne). simpl.
  pose proof (max_list_elem_of _ Hne) as Hhi.
  split_and!.
  - apply elem_of_occupied_from in Hlo as (j & s & -> & Hj & Hs). by exists s.
  - apply elem_of_occupied_from in Hhi as (j & s & -> & Hj & Hs). by exists s.
  - intros i s Hi Hs.
    assert (0 + i ∈ occupied_from h bs 0) as Hin.
    { apply elem_of_occupied_from. by exists i, s. }
    simpl in Hin. split; [by apply Hle|by apply max_list_elem_of_le].
Qed.

Lemma occupied_from_witness (h : Heap) (bs : list nat) i s :
  bs !! i = Some s → contents h s ≠ ∅ → occupied_from h bs 0 ≠ [].
Proof.
  intros Hi Hs Hnil.
  assert (0 + i ∈ occupied_from h bs 0) as Hin.
  { apply elem_of_occupied_from. by exists i, s. }
  rewrite Hnil in Hin. by apply elem_of_nil in Hin.
Qed.

(** X2: when [getBucketRange] returns a range, [minBucket] and
    [maxBucket] are indices of sets that hold a card, and the index of
    every set that holds a card lies between them. *)
Theorem getBucketRange_bounds (h : Heap) (bs : list nat) rg :
  getBucketRange bs h = (Normal (Some rg), h) →
  (∃ s, bs !! minBucket rg = Some s ∧ contents h s ≠ ∅) ∧
  (∃ s, bs !! maxBucket rg = Some s ∧ contents h s ≠ ∅) ∧
  (∀ i s, bs !! i = Some s → contents h s ≠ ∅ →
          minBucket rg ≤ i ≤ maxBucket rg).
Proof.
  intros Heq.
  destruct (decide (occupied_from h bs 0 = [])) as [Hnil|Hne].
  - rewrite getBucketRange_spec, decide_True in Heq by done. simplify_eq.
  - destruct (getBucketRange_range h bs Hne) as (rg' & Heq' & Hrange).
    rewrite Heq in Heq'. by simplify_eq.
Qed.

Lemma getBucketRange_bounds_witness :
  getBucketRange bucketsSix heapOverlap
  = (Normal (Some (mkBucketRange 0 5)), heapOverlap) ∧
  (∃ s, bucketsSix !! 0 = Some s ∧ contents heapOverlap s ≠ ∅) ∧
  (∃ s, bucketsSix !! 5 = Some s ∧ contents heapOverlap s ≠ ∅) ∧
  (∀ i s, bucketsSix !! i = Some s → contents heapOverlap s ≠ ∅ → 0 ≤ i ≤ 5).
Proof.
  assert (getBucketRange bucketsSix heapOverlap
          = (Normal (Some (mkBucketRange 0 5)), heapOverlap)) as Heq.
  { apply (bool_decide_unpack _). by vm_compute. }
  split; [exact Heq|].
  exact (getBucketRange_bounds heapOverlap bucketsSix (mkBucketRange 0 5) Heq).
Defined.

(** ** [getBucketRange] after [toBucketSets] *)

Lemma singleton_object (h : Heap) k r : r < length h → MapObject h [(k, r)].
Proof. intros Hr. split; [apply NoDup_singleton|]. by repeat constructor. Qed.

Lemma singleton_bucket (h : Heap) k r k' :
  bucket h [(k, r)] k' = if decide (k' = k) then contents h r else ∅.
Proof.
  unfold bucket. simpl. destruct (decide (k = k')) as [->|Hne].
  - by rewrite decide_True.
  - by rewrite decide_False by done.
Qed.

Lemma singleton_no_empty (h : Heap) k r :
  contents h r ≠ ∅ → no_empty_bucket h [(k, r)].
Proof.
  intros Hne k' [r' Hr']. rewrite singleton_bucket.
  simpl in Hr'. case_decide; simplify_eq. by rewrite decide_True.
Qed.

Lemma singleton_one_bucket (h : Heap) k r : one_bucket_per_card h [(k, r)].
Proof.
  intros c k1 k2. rewrite !singleton_bucket.
  repeat case_decide; subst; set_solver.
Qed.

Lemma heapX_nonempty : contents heapX 0 ≠ ∅.
Proof.
  intros Hemp. assert (cardX ∈ contents heapX 0) as Hin by by apply elem_of_singleton.
  rewrite Hemp in Hin. set_solver.
Qed.

Lemma toBucketSets_lookup (h : Heap) (m : BucketMap) i :
  i < (if decide (m = []) then 0 else S (max_occupied m)) →
  let n := if decide (m = []) then 0 else S (max_occupied m) in
  seq (length h) n !! i = Some (length h + i) ∧
  contents (h ++ (bucket h m <$> seq 0 n)) (length h + i) = bucket h m i.
Proof.
  intros Hi n. split; [by apply lookup_seq_lt|].
  rewrite contents_app_new, list_lookup_total_alt, list_lookup_fmap.
  by rewrite lookup_seq_lt.
Qed.

Lemma key_in_range (m : BucketMap) k :
  k ∈ map_keys m → k < (if decide (m = []) then 0 else S (max_occupied m)).
Proof.
  intros Hk. destruct (decide (m = [])) as [->|_].
  - by apply elem_of_nil in Hk.
  - apply max_list_elem_of_le in Hk. unfold max_occupied. lia.
Qed.

Lemma bucket_nonempty_key (h : Heap) (m : BucketMap) k :
  bucket h m k ≠ ∅ → k ∈ map_keys m.
Proof.
  intros Hne. destruct (decide (k ∈ map_keys m)) as [|Hno]; [done|].
  apply map_get_None in Hno. by rewrite bucket_absent in Hne.
Qed.

Lemma key_bucket_nonempty (h : Heap) (m : BucketMap) k :
  no_empty_bucket h m → k ∈ map_keys m → bucket h m k ≠ ∅.
Proof.
  intros Hne Hk. apply Hne.
  destruct (map_get k m) as [r|] eqn:Hr; [by eexists|].
  by apply map_get_None in Hr.
Qed.

(** X3: for a mapping with at least one bucket and no empty bucket,
    [getBucketRange(toBucketSets(m))] is a range, its [minBucket] and
    [maxBucket] are the smallest and the largest bucket number of the
    mapping, and the dense array ends at [maxBucket]. *)
Theorem getBucketRange_toBucketSets (h : Heap) (m : BucketMap) :
  MapObject h m → no_empty_bucket h m → m ≠ [] →
  ∃ res h1 rg,
    toBucketSets m h = (Normal res, h1) ∧
    getBucketRange res h1 = (Normal (Some rg), h1) ∧
    minBucket rg ∈ map_keys m ∧ maxBucket rg ∈ map_keys m ∧
    (∀ k, k ∈ map_keys m → minBucket rg ≤ k ≤ maxBucket rg) ∧
    length res = S (maxBucket rg).
Proof.
  intros [Hnd Hval] Hne Hm.
  pose proof (toBucketSets_spec h m Hval) as Hdense. cbn zeta in Hdense.
  set (n := if decide (m = []) then 0 else S (max_occupied m)) in *.
  set (res := seq (length h) n) in *.
  set (h1 := h ++ (bucket h m <$> seq 0 n)) in *.
  assert (∀ i, i < n → res !! i = Some (length h + i) ∧
                       contents h1 (length h + i) = bucket h m i) as Hlook.
  { intros i Hi. by apply toBucketSets_lookup. }
  assert (∀ i s, res !! i = Some s → contents h1 s ≠ ∅ → i ∈ map_keys m) as Hkey.
  { intros i s Hi Hs. unfold res in Hi. apply lookup_seq in Hi as [-> Hi].
    destruct (Hlook i Hi) as [_ Hc]. rewrite Hc in Hs.
    by eapply bucket_nonempty_key. }
  assert (∀ k, k ∈ map_keys m →
               res !! k = Some (length h + k) ∧
               contents h1 (length h + k) ≠ ∅) as Hocc.
  { intros k Hk. destruct (Hlook k (key_in_range m k Hk)) as [Hr Hc].
    split; [done|]. rewrite Hc. by apply key_bucket_nonempty. }
  assert (∃ k, k ∈ map_keys m) as [k0 Hk0].
  { destruct m as [|[k r] m]; [done|]. exists k. left. }
  destruct (Hocc k0 Hk0) as [Hr0 Hc0].
  destruct (getBucketRange_range h1 res
              (occupied_from_witness h1 res k0 _ Hr0 Hc0))
    as (rg & Hrg & (smin & Hmin & Hminne) & (smax & Hmax & Hmaxne) & Hall).
  assert (∀ k, k ∈ map_keys m → minBucket rg ≤ k ≤ maxBucket rg) as Hbetween.
  { intros k Hk. destruct (Hocc k Hk) as [Hr Hc]. by eapply Hall. }
  exists res, h1, rg.
  split_and!; [done|done|by eapply Hkey|by eapply Hkey|done|].
  unfold res. rewrite length_seq. unfold n. rewrite decide_False by done.
  f_equal. unfold max_occupied. apply Nat.le_antisymm.
  - apply Hbetween, max_list_elem_of. by destruct m.
  - apply max_list_elem_of_le. by eapply Hkey.
Qed.

Lemma getBucketRange_toBucketSets_witness :
  MapObject heapX mapX2 ∧ no_empty_bucket heapX mapX2 ∧ mapX2 ≠ [] ∧
  ∃ res h1 rg,
    toBucketSets mapX2 heapX = (Normal res, h1) ∧
    getBucketRange res h1 = (Normal (Some rg), h1) ∧
    minBucket rg ∈ map_keys mapX2 ∧ maxBucket rg ∈ map_keys mapX2 ∧
    (∀ k, k ∈ map_keys mapX2 → minBucket rg ≤ k ≤ maxBucket rg) ∧
    length res = S (maxBucket rg).
Proof.
  assert (mapX2 ≠ []) as Hm by discriminate.
  assert (MapObject heapX mapX2) as Hobj by (apply singleton_object; simpl; lia).
  pose proof (singleton_no_empty heapX 2 0 heapX_nonempty) as Hne.
  split_and!; [exact Hobj|exact Hne|exact Hm|].
  exact (getBucketRange_toBucketSets heapX mapX2 Hobj Hne Hm).
Defined.

(** ** [update]: what it keeps *)

(** The buckets after [update], for a mapping that satisfies the
    invariant: the call completes, the result satisfies the invariant
    again, a card of no bucket changes nothing, and a card of bucket [b]
    moves to its destination. *)
Lemma update_buckets (h : Heap) (m : BucketMap) c d :
  MapObject h m → no_empty_bucket h m → one_bucket_per_card h m →
  ∃ m' h',
    update m c d h = (Normal m', h') ∧
    MapObject h' m' ∧ no_empty_bucket h' m' ∧ one_bucket_per_card h' m' ∧
    ((∀ b, c ∉ bucket h m b) → m' = m ∧ h' = h) ∧
    (∀ b, c ∈ bucket h m b →
       (∀ k, bucket h' m' k =
             bucket h m k ∖ {[c]} ∪
             (if decide (k = destination d b) then {[c]} else ∅)) ∧
       (∀ k, is_Some (map_get k m') →
             k = destination d b ∨ is_Some (map_get k m))).
Proof.
  intros Hobj Hne Hone.
  destruct (bucketed_dec h m c) as [[b Hc]|Hno].
  - destruct (update_hit h m c d b Hobj Hne Hone Hc)
      as (m' & h' & Hup & Hobj' & Hb & Hp).
    exists m', h'. split_and!; try done.
    + intros k Hk. rewrite Hb. destruct (Hp k Hk) as [->|[_ Hk']].
      * rewrite decide_True by done. set_solver.
      * set_solver.
    + intros x k1 k2. rewrite !Hb. intros H1 H2.
      destruct (decide (x = c)) as [->|Hx].
      * destruct (decide (k1 = destination d b)) as [->|?]; [|set_solver].
        destruct (decide (k2 = destination d b)) as [->|?]; [done|set_solver].
      * apply (Hone x).
        -- destruct (decide (k1 = destination d b)); set_solver.
        -- destruct (decide (k2 = destination d b)); set_solver.
    + intros Hno. by destruct (Hno b).
    + intros b' Hc'. assert (b' = b) as -> by by apply (Hone c).
      split; [done|]. intros k Hk. destruct (Hp k Hk) as [?|[? _]]; auto.
  - exists m, h. split_and!; try done.
    + apply update_miss. destruct Hobj. by apply bucket_miss.
    + intros b Hc. by destruct (Hno b).
Qed.

(** X4: for a mapping that satisfies the invariant, [update] keeps the
    cards of the mapping: a card is in some bucket of the result exactly
    when it was in some bucket before, whichever card was practised. *)
Theorem update_conserves_cards (h : Heap) (m : BucketMap) c d :
  MapObject h m → no_empty_bucket h m → one_bucket_per_card h m →
  ∃ m' h',
    update m c d h = (Normal m', h') ∧
    ∀ c', (∃ k, c' ∈ bucket h' m' k) ↔ (∃ k, c' ∈ bucket h m k).
Proof.
  intros Hobj Hne Hone.
  destruct (update_buckets h m c d Hobj Hne Hone)
    as (m' & h' & Hup & _ & _ & _ & Hmiss & Hhit).
  exists m', h'. split; [done|]. intros c'.
  destruct (bucketed_dec h m c) as [[b Hc]|Hno].
  - destruct (Hhit b Hc) as [Hb _]. split.
    + intros [k Hk]. rewrite Hb in Hk.
      destruct (decide (c' = c)) as [->|Hc']; [by exists b|].
      exists k. destruct (decide (k = destination d b)); set_solver.
    + intros [k Hk]. destruct (decide (c' = c)) as [->|Hc'].
      * exists (destination d b). rewrite Hb, decide_True by done. set_solver.
      * exists k. rewrite Hb. set_solver.
  - by destruct (Hmiss Hno) as [-> ->].
Qed.

Lemma update_conserves_cards_witness :
  MapObject heapX mapX3 ∧ no_empty_bucket heapX mapX3 ∧
  one_bucket_per_card heapX mapX3 ∧
  ∃ m' h',
    update mapX3 cardX Easy heapX = (Normal m', h') ∧
    ∀ c', (∃ k, c' ∈ bucket h' m' k) ↔ (∃ k, c' ∈ bucket heapX mapX3 k).
Proof.
  split_and!; [apply mapX3_object|apply mapX3_no_empty|apply mapX3_one_bucket|].
  exact (update_conserves_cards heapX mapX3 cardX Easy
           mapX3_object mapX3_no_empty mapX3_one_bucket).
Defined.

Lemma sum_list_seq_indicator (g : nat → nat) x n :
  x < n →
  sum_list ((λ i, g i + (if decide (i = x) then 1 else 0)) <$> seq 0 n)
  = sum_list (g <$> seq 0 n) + 1.
Proof.
  intros Hx. induction n as [|n IH]; [lia|].
  rewrite seq_S, !fmap_app, !sum_list_with_app. simpl.
  destruct (decide (x = n)) as [->|Hne].
  - assert (sum_list ((λ i, g i + (if decide (i = n) then 1 else 0)) <$> seq 0 n)
            = sum_list (g <$> seq 0 n)) as ->.
    { f_equal. apply list_fmap_ext. intros j i Hi.
      apply lookup_seq in Hi as [-> ?]. rewrite decide_False by lia. lia. }
    rewrite decide_True by done. lia.
  - rewrite IH by lia. rewrite decide_False by done. lia.
Qed.

Lemma size_without (X : gset Flashcard) c :
  size X = size (X ∖ {[c]}) + (if decide (c ∈ X) then 1 else 0).
Proof.
  case_decide as Hc.
  - assert (X = X ∖ {[c]} ∪ {[c]}) as Heq.
    { apply set_eq. intros x. destruct (decide (x = c)); set_solver. }
    rewrite Heq at 1. rewrite size_union by set_solver.
    by rewrite size_singleton.
  - assert (X ∖ {[c]} = X) as -> by set_solver. lia.
Qed.

(** X5: for a mapping that satisfies the invariant, [update] keeps the
    total number of cards: the sizes of the sets of the result add up to
    what the sizes of the sets of the mapping added up to. *)
Theorem update_keeps_total (h : Heap) (m : BucketMap) c d :
  MapObject h m → no_empty_bucket h m → one_bucket_per_card h m →
  ∃ m' h',
    update m c d h = (Normal m', h') ∧ sum_sizes h' m' = sum_sizes h m.
Proof.
  intros Hobj Hne Hone.
  destruct (update_buckets h m c d Hobj Hne Hone)
    as (m' & h' & Hup & Hobj' & _ & _ & Hmiss & Hhit).
  exists m', h'. split; [done|].
  destruct (bucketed_dec h m c) as [[b Hc]|Hno];
    [|by destruct (Hmiss Hno) as [-> ->]].
  destruct (Hhit b Hc) as [Hb _].
  set (n := S (max_occupied m `max` max_occupied m')).
  assert (∀ k, k ∈ map_keys m → k < n) as Hlt.
  { intros k Hk. apply max_list_elem_of_le in Hk. unfold n, max_occupied. lia. }
  assert (∀ k, k ∈ map_keys m' → k < n) as Hlt'.
  { intros k Hk. apply max_list_elem_of_le in Hk. unfold n, max_occupied. lia. }
  destruct Hobj as [Hnd _], Hobj' as [Hnd' _].
  rewrite <- (sum_buckets h m n Hnd Hlt), <- (sum_buckets h' m' n Hnd' Hlt').
  assert (b < n) as Hbn.
  { apply Hlt. apply (bucket_nonempty_key h). set_solver. }
  assert (destination d b < n) as Hdn.
  { apply Hlt'. apply (bucket_nonempty_key h'). rewrite Hb.
    rewrite decide_True by done. set_solver. }
  transitivity
    (sum_list ((λ i, size (bucket h m i ∖ {[c]})) <$> seq 0 n) + 1).
  - rewrite <- (sum_list_seq_indicator _ (destination d b)) by done.
    f_equal. apply list_fmap_ext. intros j i _. rewrite Hb.
    case_decide.
    + rewrite size_union by set_solver. by rewrite size_singleton.
    + by rewrite (right_id_L ∅ (∪)), Nat.add_0_r.
  - rewrite <- (sum_list_seq_indicator _ b) by done.
    f_equal. apply list_fmap_ext. intros j i _.
    rewrite (size_without (bucket h m i) c).
    destruct (decide (i = b)) as [->|Hi].
    + by rewrite decide_True.
    + rewrite decide_False; [done|]. intros Hci. by apply Hi, (Hone c).
Qed.

Lemma update_keeps_total_witness :
  MapObject heapX mapX3 ∧ no_empty_bucket heapX mapX3 ∧
  one_bucket_per_card heapX mapX3 ∧
  ∃ m' h',
    update mapX3 cardX Hard heapX = (Normal m', h') ∧
    sum_sizes h' m' = sum_sizes heapX mapX3.
Proof.
  split_and!; [apply mapX3_object|apply mapX3_no_empty|apply mapX3_one_bucket|].
  exact (update_keeps_total heapX mapX3 cardX Hard
           mapX3_object mapX3_no_empty mapX3_one_bucket).
Defined.

Lemma key_is_Some {V} (m : list (nat * V)) k :
  k ∈ map_keys m ↔ is_Some (map_get k m).
Proof.
  rewrite <- not_eq_None_Some, map_get_None.
  split; [by intros ? ?|]. intros Hnn.
  by destruct (decide (k ∈ map_keys m)).
Qed.

(** X6: when the practised card is in bucket [b] of a mapping that
    satisfies the invariant, the buckets of the result are the
    destination bucket and the buckets of the mapping that held a card
    other than the practised one: a bucket is dropped exactly when the
    card was alone in it and does not come back to it. *)
Theorem update_buckets_present (h : Heap) (m : BucketMap) c d b :
  MapObject h m → no_empty_bucket h m → one_bucket_per_card h m →
  c ∈ bucket h m b →
  ∃ m' h',
    update m c d h = (Normal m', h') ∧
    ∀ k, k ∈ map_keys m' ↔
         k = destination d b ∨ (k ∈ map_keys m ∧ bucket h m k ≠ {[c]}).
Proof.
  intros Hobj Hne Hone Hc.
  destruct (update_buckets h m c d Hobj Hne Hone)
    as (m' & h' & Hup & _ & Hne' & _ & _ & Hhit).
  destruct (Hhit b Hc) as [Hb _].
  exists m', h'. split; [done|]. intros k. split.
  - intros Hk. apply (key_bucket_nonempty h' m' k Hne') in Hk.
    rewrite Hb in Hk.
    destruct (decide (k = destination d b)) as [|Hkd]; [by left|right].
    split.
    + apply (bucket_nonempty_key h). set_solver.
    + intros Heq. rewrite Heq in Hk. set_solver.
  - intros [->|[Hk Hkc]]; apply (bucket_nonempty_key h'); rewrite Hb.
    + rewrite decide_True by done. set_solver.
    + apply (key_bucket_nonempty h m k Hne) in Hk.
      assert (bucket h m k ∖ {[c]} ≠ ∅); [|set_solver].
      intros Hemp. apply Hkc. apply set_eq. intros x.
      destruct (decide (x = c)) as [->|Hx].
      * split; [set_solver|]. intros _.
        apply set_choose_L in Hk as [y Hy].
        destruct (decide (y = c)) as [->|Hy']; [done|set_solver].
      * set_solver.
Qed.

Lemma update_buckets_present_witness :
  MapObject heapX mapX3 ∧ no_empty_bucket heapX mapX3 ∧
  one_bucket_per_card heapX mapX3 ∧ cardX ∈ bucket heapX mapX3 3 ∧
  ∃ m' h',
    update mapX3 cardX Easy heapX = (Normal m', h') ∧
    ∀ k, k ∈ map_keys m' ↔
         k = 4 ∨ (k ∈ map_keys mapX3 ∧ bucket heapX mapX3 k ≠ {[cardX]}).
Proof.
  assert (cardX ∈ bucket heapX mapX3 3) as Hc.
  { rewrite mapX3_bucket. simpl. by apply elem_of_singleton. }
  split_and!; [apply mapX3_object|apply mapX3_no_empty|apply mapX3_one_bucket|exact Hc|].
  exact (update_buckets_present heapX mapX3 cardX Easy 3
           mapX3_object mapX3_no_empty mapX3_one_bucket Hc).
Defined.

Lemma destination_le_retired d b : b ≤ 5 → destination d b ≤ 5.
Proof.
  intros Hb. unfold destination. destruct d; [lia| |case_decide; lia].
  destruct (Z.max_spec 0 (Z.of_nat b - 1)) as [[_ ->]|[_ ->]]; lia.
Qed.

(** X7: [update] never goes past the retired bucket: when no bucket
    number of a mapping that satisfies the invariant exceeds 5, no bucket
    number of the result does. *)
Theorem update_within_retired (h : Heap) (m : BucketMap) c d :
  MapObject h m → no_empty_bucket h m → one_bucket_per_card h m →
  (∀ k, k ∈ map_keys m → k ≤ 5) →
  ∃ m' h',
    update m c d h = (Normal m', h') ∧ ∀ k, k ∈ map_keys m' → k ≤ 5.
Proof.
  intros Hobj Hne Hone Hmax.
  destruct (update_buckets h m c d Hobj Hne Hone)
    as (m' & h' & Hup & _ & _ & _ & Hmiss & Hhit).
  exists m', h'. split; [done|].
  destruct (bucketed_dec h m c) as [[b Hc]|Hno];
    [|by destruct (Hmiss Hno) as [-> ->]].
  destruct (Hhit b Hc) as [_ Hp]. intros k Hk.
  apply key_is_Some in Hk. destruct (Hp k Hk) as [->|Hk'].
  - apply destination_le_retired, Hmax, (bucket_nonempty_key h). set_solver.
  - by apply Hmax, key_is_Some.
Qed.

Lemma update_within_retired_witness :
  MapObject heapX mapX3 ∧ no_empty_bucket heapX mapX3 ∧
  one_bucket_per_card heapX mapX3 ∧ (∀ k, k ∈ map_keys mapX3 → k ≤ 5) ∧
  ∃ m' h',
    update mapX3 cardX Easy heapX = (Normal m', h') ∧
    ∀ k, k ∈ map_keys m' → k ≤ 5.
Proof.
  assert (∀ k, k ∈ map_keys mapX3 → k ≤ 5) as Hmax.
  { intros k Hk. apply list_elem_of_singleton in Hk. simpl in Hk. lia. }
  split_and!; [apply mapX3_object|apply mapX3_no_empty|apply mapX3_one_bucket|exact Hmax|].
  exact (update_within_retired heapX mapX3 cardX Easy
           mapX3_object mapX3_no_empty mapX3_one_bucket Hmax).
Defined.

(** ** [update] after [update] *)

(** X8: two calls of [update] for the same card in a row, the second on
    the mapping the first returned, leave the buckets as one move of the
    card from its bucket [b] to the destination of the second answer
    taken from the destination of the first. *)
Theorem update_twice (h : Heap) (m : BucketMap) c d1 d2 b :
  MapObject h m → no_empty_bucket h m → one_bucket_per_card h m →
  c ∈ bucket h m b →
  ∃ m1 h1 m2 h2,
    update m c d1 h = (Normal m1, h1) ∧
    update m1 c d2 h1 = (Normal m2, h2) ∧
    ∀ k, bucket h2 m2 k =
         bucket h m k ∖ {[c]} ∪
         (if decide (k = destination d2 (destination d1 b)) then {[c]} else ∅).
Proof.
  intros Hobj Hne Hone Hc.
  destruct (update_buckets h m c d1 Hobj Hne Hone)
    as (m1 & h1 & Hup1 & Hobj1 & Hne1 & Hone1 & _ & Hhit1).
  destruct (Hhit1 b Hc) as [Hb1 _].
  assert (c ∈ bucket h1 m1 (destination d1 b)) as Hc1.
  { rewrite Hb1, decide_True by done. set_solver. }
  destruct (update_buckets h1 m1 c d2 Hobj1 Hne1 Hone1)
    as (m2 & h2 & Hup2 & _ & _ & _ & _ & Hhit2).
  destruct (Hhit2 _ Hc1) as [Hb2 _].
  exists m1, h1, m2, h2. split_and!; [done|done|].
  intros k. rewrite Hb2, Hb1.
  destruct (decide (k = destination d1 b)); set_solver.
Qed.

Lemma update_twice_witness :
  MapObject heapX mapX3 ∧ no_empty_bucket heapX mapX3 ∧
  one_bucket_per_card heapX mapX3 ∧ cardX ∈ bucket heapX mapX3 3 ∧
  ∃ m1 h1 m2 h2,
    update mapX3 cardX Wrong heapX = (Normal m1, h1) ∧
    update m1 cardX Easy h1 = (Normal m2, h2) ∧
    ∀ k, bucket h2 m2 k =
         bucket heapX mapX3 k ∖ {[cardX]} ∪
         (if decide (k = 1) then {[cardX]} else ∅).
Proof.
  assert (cardX ∈ bucket heapX mapX3 3) as Hc.
  { rewrite mapX3_bucket. simpl. by apply elem_of_singleton. }
  split_and!; [apply mapX3_object|apply mapX3_no_empty|apply mapX3_one_bucket|exact Hc|].
  exact (update_twice heapX mapX3 cardX Wrong Easy 3
           mapX3_object mapX3_no_empty mapX3_one_bucket Hc).
Defined.

(** X9: an Easy answer followed by a Hard answer for the same card
    brings every bucket back to the cards it held, unless the card was
    in the retired bucket 5, which Easy does not leave. *)
Theorem update_easy_hard_round_trip (h : Heap) (m : BucketMap) c b :
  MapObject h m → no_empty_bucket h m → one_bucket_per_card h m →
  c ∈ bucket h m b → b ≠ 5 →
  ∃ m1 h1 m2 h2,
    update m c Easy h = (Normal m1, h1) ∧
    update m1 c Hard h1 = (Normal m2, h2) ∧
    ∀ k, bucket h2 m2 k = bucket h m k.
Proof.
  intros Hobj Hne Hone Hc Hb.
  destruct (update_buckets h m c Easy Hobj Hne Hone)
    as (m1 & h1 & Hup1 & Hobj1 & Hne1 & Hone1 & _ & Hhit1).
  destruct (Hhit1 b Hc) as [Hb1 _].
  assert (c ∈ bucket h1 m1 (destination Easy b)) as Hc1.
  { rewrite Hb1, decide_True by done. set_solver. }
  destruct (update_buckets h1 m1 c Hard Hobj1 Hne1 Hone1)
    as (m2 & h2 & Hup2 & _ & _ & _ & _ & Hhit2).
  destruct (Hhit2 _ Hc1) as [Hb2 _].
  exists m1, h1, m2, h2. split_and!; [done|done|].
  assert (destination Hard (destination Easy b) = b) as Hback.
  { unfold destination. rewrite decide_False by done.
    destruct (Z.max_spec 0 (Z.of_nat (b + 1) - 1)) as [[? ->]|[? ->]]; lia. }
  intros k. rewrite Hb2, Hb1, Hback. apply set_eq. intros x.
  destruct (decide (k = b)) as [->|Hk].
  - destruct (decide (x = c)) as [->|Hx];
      destruct (decide (b = destination Easy b)); set_solver.
  - assert (c ∉ bucket h m k) by (intros Hck; by apply Hk, (Hone c)).
    destruct (decide (k = destination Easy b)); set_solver.
Qed.

Lemma update_easy_hard_round_trip_witness :
  MapObject heapX mapX3 ∧ no_empty_bucket heapX mapX3 ∧
  one_bucket_per_card heapX mapX3 ∧ cardX ∈ bucket heapX mapX3 3 ∧ 3 ≠ 5 ∧
  ∃ m1 h1 m2 h2,
    update mapX3 cardX Easy heapX = (Normal m1, h1) ∧
    update m1 cardX Hard h1 = (Normal m2, h2) ∧
    ∀ k, bucket h2 m2 k = bucket heapX mapX3 k.
Proof.
  assert (cardX ∈ bucket heapX mapX3 3) as Hc.
  { rewrite mapX3_bucket. simpl. by apply elem_of_singleton. }
  assert (3 ≠ 5) as Hb by lia.
  split_and!; [apply mapX3_object|apply mapX3_no_empty|apply mapX3_one_bucket|exact Hc|exact Hb|].
  exact (update_easy_hard_round_trip heapX mapX3 cardX 3
           mapX3_object mapX3_no_empty mapX3_one_bucket Hc Hb).
Defined.

(** ** [update] and the mapping of the caller *)

(** X10: [update] works on the [Set] objects of the mapping it is given.
    When the practised card is in bucket [b] of a mapping that satisfies
    the invariant and its destination is another bucket, the card is
    gone from bucket [b] of the caller's own mapping after the call. *)
Theorem update_drains_callers_bucket (h : Heap) (m : BucketMap) c d b :
  MapObject h m → no_empty_bucket h m → one_bucket_per_card h m →
  c ∈ bucket h m b → destination d b ≠ b →
  ∃ m' h',
    update m c d h = (Normal m', h') ∧
    bucket h' m b = bucket h m b ∖ {[c]}.
Proof.
  intros [Hnd Hval] Hne Hone Hc Hdest.
  pose proof (invariant_refs_inj h m Hne Hone) as Hinj.
  destruct (bucket_locate h m c b Hnd Hone Hc)
    as (s & pre & post & Hb & Hs & Hm & Hpre).
  pose proof (update_scan_hit pre b s post m c h Hpre Hs) as Hscan.
  rewrite <- Hm in Hscan.
  assert (s < length h) as Hsv by (eapply contents_valid, Hs).
  unfold update. unfold mbind at 1, M_bind at 1. rewrite Hscan.
  assert (match d with
          | Wrong => 0
          | Easy => if decide (b = 5) then b else b + 1
          | Hard => Z.to_nat (Z.max 0 (Z.of_nat b - 1))
          end = destination d b) as ->.
  { unfold destination. destruct d; try done.
    by destruct (decide (b = 5)) as [->|?]. }
  set (h1 := <[s := contents h s ∖ {[c]}]> h).
  set (m1 := if decide (size (contents h s ∖ {[c]}) = 0)
             then map_delete b m else m).
  assert (length h1 = length h) as Hlen1 by apply length_insert.
  assert (contents h1 s = contents h s ∖ {[c]}) as Hs1.
  { unfold h1. rewrite contents_insert by done. by destruct (decide (s = s)). }
  assert (∀ t, map_get (destination d b) m1 = Some t →
               map_get (destination d b) m = Some t) as Hsub.
  { intros t. unfold m1. case_decide; [|done].
    rewrite map_get_delete. by rewrite decide_False. }
  unfold mbind at 1, M_bind at 1.
  destruct (map_has (destination d b) m1) eqn:Hhas.
  - apply map_has_true in Hhas as [t Ht].
    unfold mret at 1, M_ret at 1. rewrite Ht.
    unfold mbind, M_bind, setAdd, mret, M_ret.
    eexists _, _. split; [reflexivity|].
    pose proof (Hsub t Ht) as Ht'.
    assert (t ≠ s) as Hts.
    { intros ->. by apply Hdest, (Hinj (destination d b) b s). }
    rewrite !(bucket_get _ m b s Hb), contents_insert.
    + by rewrite decide_False.
    + rewrite Hlen1. by eapply map_get_valid.
  - unfold mbind at 1, M_bind at 1, newSet at 1, mret at 1, M_ret at 1.
    rewrite map_get_set, decide_True by done.
    unfold mbind, M_bind, setAdd, mret, M_ret.
    eexists _, _. split; [reflexivity|].
    rewrite !(bucket_get _ m b s Hb).
    rewrite contents_insert by (rewrite length_app; simpl; lia).
    rewrite decide_False by lia.
    by rewrite contents_alloc_old by lia.
Qed.

Lemma update_drains_callers_bucket_witness :
  MapObject heapX mapX3 ∧ no_empty_bucket heapX mapX3 ∧
  one_bucket_per_card heapX mapX3 ∧ cardX ∈ bucket heapX mapX3 3 ∧
  destination Wrong 3 ≠ 3 ∧
  ∃ m' h',
    update mapX3 cardX Wrong heapX = (Normal m', h') ∧
    bucket h' mapX3 3 = bucket heapX mapX3 3 ∖ {[cardX]}.
Proof.
  assert (cardX ∈ bucket heapX mapX3 3) as Hc.
  { rewrite mapX3_bucket. simpl. by apply elem_of_singleton. }
  assert (destination Wrong 3 ≠ 3) as Hd by (simpl; lia).
  split_and!; [apply mapX3_object|apply mapX3_no_empty|apply mapX3_one_bucket|exact Hc|exact Hd|].
  exact (update_drains_callers_bucket heapX mapX3 cardX Wrong 3
           mapX3_object mapX3_no_empty mapX3_one_bucket Hc Hd).
Defined.

(** ** [practice]: the schedule *)

Lemma due_cards_ext (h : Heap) (bs : list nat) day1 day2 indices :
  (∀ i, i ∈ indices →
        Z.rem day1 (2 ^ Z.of_nat i) = 0%Z ↔ Z.rem day2 (2 ^ Z.of_nat i) = 0%Z) →
  due_cards h bs day1 indices = due_cards h bs day2 indices.
Proof.
  intros Hext. unfold due_cards. f_equal.
  apply list_fmap_ext. intros j i Hi.
  apply list_elem_of_lookup_2 in Hi. specialize (Hext i Hi).
  destruct (decide (i = 5)); [done|].
  destruct (decide (Z.rem day1 (2 ^ Z.of_nat i) = 0%Z)) as [H1|H1].
  - by rewrite decide_True by by apply Hext.
  - rewrite decide_False; [done|]. intros H2. by apply H1, Hext.
Qed.

Lemma pow2_nonzero i : (2 ^ Z.of_nat i ≠ 0)%Z.
Proof. apply Z.pow_nonzero; lia. Qed.

Lemma pow2_divide i p : i ≤ p → (2 ^ Z.of_nat i | 2 ^ Z.of_nat p)%Z.
Proof.
  intros Hip. exists (2 ^ (Z.of_nat p - Z.of_nat i))%Z.
  rewrite <- Z.pow_add_r by lia. f_equal. lia.
Qed.

(** X11: the cards of bucket 0 are due every day: whatever the day
    number, the set [practice] returns holds every card of the set at
    index 0. *)
Theorem practice_bucket_zero_daily (h : Heap) (bs : list nat) (day : Z) s0 :
  ArrayObject h bs → bs !! 0 = Some s0 →
  ∃ res h',
    practice bs day h = (Normal res, h') ∧
    contents h s0 ⊆ contents h' res.
Proof.
  intros Hbs Hs0. eexists _, _. split; [by apply practice_spec|].
  intros c Hc. rewrite contents_last. apply elem_of_due_cards.
  exists 0, s0. split_and!; [done|done| |done].
  simpl. apply Z.rem_1_r.
Qed.

Lemma practice_bucket_zero_daily_witness :
  ArrayObject heapOverlap bucketsSix ∧ bucketsSix !! 0 = Some 0 ∧
  ∃ res h',
    practice bucketsSix 7 heapOverlap = (Normal res, h') ∧
    contents heapOverlap 0 ⊆ contents h' res.
Proof.
  assert (bucketsSix !! 0 = Some 0) as Hs0 by reflexivity.
  split_and!; [apply bucketsSix_object|exact Hs0|].
  exact (practice_bucket_zero_daily heapOverlap bucketsSix 7 0
           bucketsSix_object Hs0).
Defined.

(** X12: on an odd day only bucket 0 is due: the set [practice] returns
    holds the cards of the set at index 0 and no other card (none for
    the empty array). *)
Theorem practice_odd_day (h : Heap) (bs : list nat) (day : Z) :
  ArrayObject h bs → Z.odd day = true →
  ∃ res h',
    practice bs day h = (Normal res, h') ∧
    contents h' res = from_option (contents h) ∅ (bs !! 0).
Proof.
  intros Hbs Hodd. eexists _, _. split; [by apply practice_spec|].
  rewrite contents_last. apply set_eq. intros c.
  rewrite elem_of_due_cards. split.
  - intros (i & s & Hs & Hi & Hdue & Hc).
    destruct i as [|i]; [by rewrite Hs|]. exfalso.
    apply Z.rem_divide in Hdue as [q Hq]; [|apply pow2_nonzero].
    rewrite Nat2Z.inj_succ, Z.pow_succ_r in Hq by lia.
    assert (day = 2 * (q * 2 ^ Z.of_nat i))%Z as Heven by lia.
    rewrite Heven, Z.odd_mul in Hodd. done.
  - intros Hc. destruct (bs !! 0) as [s0|] eqn:Hs0; [|set_solver].
    exists 0, s0. split_and!; [done|done| |done]. simpl. apply Z.rem_1_r.
Qed.

Lemma practice_odd_day_witness :
  ArrayObject heapOverlap bucketsSix ∧ Z.odd 7 = true ∧
  ∃ res h',
    practice bucketsSix 7 heapOverlap = (Normal res, h') ∧
    contents h' res = from_option (contents heapOverlap) ∅ (bucketsSix !! 0).
Proof.
  assert (Z.odd 7 = true) as Hodd by reflexivity.
  split_and!; [apply bucketsSix_object|exact Hodd|].
  exact (practice_odd_day heapOverlap bucketsSix 7 bucketsSix_object Hodd).
Defined.

(** X13: the schedule repeats: for an array of at most [p + 1] buckets,
    [practice] returns the same cards on day [day + 2^p] as on day
    [day]. *)
Theorem practice_periodic (h : Heap) (bs : list nat) (day : Z) (p : nat) :
  ArrayObject h bs → length bs ≤ S p →
  ∃ res h1 res' h2,
    practice bs day h = (Normal res, h1) ∧
    practice bs (day + 2 ^ Z.of_nat p) h = (Normal res', h2) ∧
    contents h2 res' = contents h1 res.
Proof.
  intros Hbs Hlen. eexists _, _, _, _.
  split; [by apply practice_spec|]. split; [by apply practice_spec|].
  rewrite !contents_last. apply due_cards_ext.
  intros i Hi. apply elem_of_seq in Hi.
  assert (2 ^ Z.of_nat i | 2 ^ Z.of_nat p)%Z as Hdiv by (apply pow2_divide; lia).
  rewrite !Z.rem_divide by apply pow2_nonzero. split.
  - intros Hsum. apply (Z.divide_add_cancel_r _ (2 ^ Z.of_nat p)); [done|].
    by rewrite Z.add_comm.
  - intros Hday. by apply Z.divide_add_r.
Qed.

Lemma practice_periodic_witness :
  ArrayObject heapOverlap bucketsSix ∧ length bucketsSix ≤ 6 ∧
  ∃ res h1 res' h2,
    practice bucketsSix 3 heapOverlap = (Normal res, h1) ∧
    practice bucketsSix (3 + 2 ^ Z.of_nat 5) heapOverlap = (Normal res', h2) ∧
    contents h2 res' = contents h1 res.
Proof.
  assert (length bucketsSix ≤ 6) as Hlen by (simpl; lia).
  split_and!; [apply bucketsSix_object|exact Hlen|].
  exact (practice_periodic heapOverlap bucketsSix 3 5 bucketsSix_object Hlen).
Defined.

(** ** [practice] after [toBucketSets] *)

Lemma toBucketSets_array (h : Heap) (m : BucketMap) n :
  ArrayObject (h ++ (bucket h m <$> seq 0 n)) (seq (length h) n).
Proof.
  unfold ArrayObject. apply Forall_forall. intros r Hr.
  apply elem_of_seq in Hr. rewrite length_app, length_fmap, length_seq. lia.
Qed.

Lemma practice_dense (h : Heap) (m : BucketMap) day :
  MapObject h m →
  ∃ dense h1 res h2,
    toBucketSets m h = (Normal dense, h1) ∧
    practice dense day h1 = (Normal res, h2) ∧
    ∀ c, c ∈ contents h2 res ↔
         ∃ k, k ≠ 5 ∧ Z.rem day (2 ^ Z.of_nat k) = 0%Z ∧ c ∈ bucket h m k.
Proof.
  intros [Hnd Hval].
  pose proof (toBucketSets_spec h m Hval) as Hdense. cbn zeta in Hdense.
  set (n := if decide (m = []) then 0 else S (max_occupied m)) in *.
  eexists _, _, _, _. split; [exact Hdense|].
  split; [apply practice_spec, toBucketSets_array|].
  intros c. rewrite contents_last, elem_of_due_cards. split.
  - intros (i & s & Hs & Hi & Hdue & Hc).
    apply lookup_seq in Hs as [-> Hlt].
    destruct (toBucketSets_lookup h m i Hlt) as [_ Hcopy].
    fold n in Hcopy. rewrite Hcopy in Hc. by exists i.
  - intros (k & Hk & Hdue & Hc).
    assert (k < n) as Hlt.
    { apply key_in_range, (bucket_nonempty_key h). set_solver. }
    destruct (toBucketSets_lookup h m k Hlt) as [Hr Hcopy].
    fold n in Hr, Hcopy.
    exists k, (length h + k). split_and!; [done|done|done|].
    by rewrite Hcopy.
Qed.

(** X14: practising the dense array of a mapping returns the cards of
    the mapping's buckets [k] other than bucket 5 with [day % 2^k = 0],
    and no other card. *)
Theorem practice_toBucketSets (h : Heap) (m : BucketMap) (day : Z) :
  MapObject h m →
  ∃ dense h1 res h2,
    toBucketSets m h = (Normal dense, h1) ∧
    practice dense day h1 = (Normal res, h2) ∧
    ∀ c, c ∈ contents h2 res ↔
         ∃ k, k ≠ 5 ∧ Z.rem day (2 ^ Z.of_nat k) = 0%Z ∧ c ∈ bucket h m k.
Proof. apply practice_dense. Qed.

Lemma practice_toBucketSets_witness :
  MapObject heapX mapX2 ∧
  ∃ dense h1 res h2,
    toBucketSets mapX2 heapX = (Normal dense, h1) ∧
    practice dense 4 h1 = (Normal res, h2) ∧
    ∀ c, c ∈ contents h2 res ↔
         ∃ k, k ≠ 5 ∧ Z.rem 4 (2 ^ Z.of_nat k) = 0%Z ∧ c ∈ bucket heapX mapX2 k.
Proof.
  split; [apply mapX2_object|].
  exact (practice_toBucketSets heapX mapX2 4 mapX2_object).
Defined.

(** X15: a retired card is never due: for a mapping in which each card
    is in at most one bucket, practising its dense array returns no card
    of bucket 5, whatever the day. *)
Theorem practice_never_retired (h : Heap) (m : BucketMap) (day : Z) c :
  MapObject h m → one_bucket_per_card h m → c ∈ bucket h m 5 →
  ∃ dense h1 res h2,
    toBucketSets m h = (Normal dense, h1) ∧
    practice dense day h1 = (Normal res, h2) ∧
    c ∉ contents h2 res.
Proof.
  intros Hobj Hone Hc.
  destruct (practice_dense h m day Hobj) as (dense & h1 & res & h2 & Hd & Hp & Hres).
  exists dense, h1, res, h2. split_and!; [done|done|].
  rewrite Hres. intros (k & Hk & _ & Hck). by apply Hk, (Hone c).
Qed.

Lemma practice_never_retired_witness :
  MapObject heapX [(5, 0)] ∧ one_bucket_per_card heapX [(5, 0)] ∧
  cardX ∈ bucket heapX [(5, 0)] 5 ∧
  ∃ dense h1 res h2,
    toBucketSets [(5, 0)] heapX = (Normal dense, h1) ∧
    practice dense 0 h1 = (Normal res, h2) ∧
    cardX ∉ contents h2 res.
Proof.
  assert (MapObject heapX [(5, 0)]) as Hobj by (apply singleton_object; simpl; lia).
  pose proof (singleton_one_bucket heapX 5 0) as Hone.
  assert (cardX ∈ bucket heapX [(5, 0)] 5) as Hc.
  { rewrite singleton_bucket, decide_True by done. by apply elem_of_singleton. }
  split_and!; [exact Hobj|exact Hone|exact Hc|].
  exact (practice_never_retired heapX [(5, 0)] 0 cardX Hobj Hone Hc).
Defined.

(** ** [getHint]: what the hint shows *)

(** X16: the hint of a card tagged [language] has one code unit for
    each code unit of the back text that is not whitespace, starts as
    the stripped back text starts, and has no whitespace in it. *)
Theorem getHint_shape (c : Flashcard) :
  str "language" ∈ tags c →
  length (getHint c) = length (replace_whitespace (back c)) ∧
  head (getHint c) = head (replace_whitespace (back c)) ∧
  Forall (λ u, is_whitespace u = false) (getHint c).
Proof.
  intros Htag. rewrite getHint_language by done. unfold masked.
  rewrite replace_whitespace_strip.
  destruct (strip_whitespace (back c)) as [|u rest] eqn:Hstrip.
  - split_and!; [done|done|constructor].
  - split_and!.
    + simpl. by rewrite length_fmap.
    + done.
    + constructor.
      * assert (u ∈ strip_whitespace (back c)) as Hu by (rewrite Hstrip; left).
        unfold strip_whitespace in Hu. apply list_elem_of_filter in Hu as [Hu _].
        by destruct (is_whitespace u).
      * apply Forall_fmap, Forall_true. done.
Qed.

Lemma getHint_shape_witness :
  str "language" ∈ tags cardTest ∧
  length (getHint cardTest) = length (replace_whitespace (back cardTest)) ∧
  head (getHint cardTest) = head (replace_whitespace (back cardTest)) ∧
  Forall (λ u, is_whitespace u = false) (getHint cardTest).
Proof.
  assert (str "language" ∈ tags cardTest) as Htag by left.
  split; [exact Htag|].
  exact (getHint_shape cardTest Htag).
Defined.

(** ** [computeProgress]: the statistics *)

Lemma map_set_increment_sum (pc : list (Flashcard * nat)) c :
  sum_list (map_values (map_set c (default 0 (map_get c pc) + 1) pc))
  = sum_list (map_values pc) + 1.
Proof.
  unfold map_values. induction pc as [|[c' n] pc IH]; [done|].
  cbn [map_set map_get]. destruct (decide (c' = c)) as [->|Hne].
  - rewrite !fmap_cons. simpl. lia.
  - rewrite !fmap_cons. cbn [sum_list_with snd]. rewrite IH. lia.
Qed.

Lemma count_fold_sum history :
  ∀ pc : list (Flashcard * nat),
    sum_list (map_values
      (foldl (λ practiceCounts entry,
                map_set (card entry)
                  (default 0 (map_get (card entry) practiceCounts) + 1)
                  practiceCounts) pc history))
    = sum_list (map_values pc) + length history.
Proof.
  induction history as [|e history IH]; intros pc; [simpl; lia|].
  cbn [foldl]. rewrite IH, map_set_increment_sum. simpl. lia.
Qed.

Lemma practices_length history : practices history = length history.
Proof.
  rewrite <- count_practices_sum. unfold count_practices.
  by rewrite count_fold_sum.
Qed.

(** X17: the per-card practice counts of [computeProgress] add up to
    the number of history entries, so for a non-empty history
    [averagePractices] is the length of the history divided by [total],
    or 0 when [total] is 0. *)
Theorem computeProgress_average (h : Heap) (m : BucketMap) history :
  history ≠ [] →
  ∃ p,
    computeProgress m history h = (Normal p, h) ∧
    averagePractices p =
      if decide (total p = 0) then PrimFloat.zero
      else PrimFloat.div (number (length history)) (number (total p)).
Proof.
  intros Hne. eexists. split; [by apply computeProgress_nonempty|].
  simpl. by rewrite practices_length.
Qed.

Lemma computeProgress_average_witness :
  historyX ≠ [] ∧
  ∃ p,
    computeProgress mapX0 historyX heapX = (Normal p, heapX) ∧
    averagePractices p =
      if decide (total p = 0) then PrimFloat.zero
      else PrimFloat.div (number (length historyX)) (number (total p)).
Proof.
  assert (historyX ≠ []) as Hne by discriminate.
  split; [exact Hne|].
  exact (computeProgress_average heapX mapX0 historyX Hne).
Defined.

(** X18: for a [Map] object and a non-empty history, the bucket counts
    that [computeProgress] returns add up to its [total]. *)
Theorem computeProgress_counts_total (h : Heap) (m : BucketMap) history :
  MapObject h m → history ≠ [] →
  ∃ p,
    computeProgress m history h = (Normal p, h) ∧
    sum_list (buckets p) = total p.
Proof.
  intros [Hnd _] Hne. eexists. split; [by apply computeProgress_nonempty|].
  cbn [buckets total]. unfold dense_counts. apply sum_buckets; [done|].
  intros k Hk. apply max_list_elem_of_le in Hk. unfold max_occupied. lia.
Qed.

Lemma computeProgress_counts_total_witness :
  MapObject heapX mapX2 ∧ historyX ≠ [] ∧
  ∃ p,
    computeProgress mapX2 historyX heapX = (Normal p, heapX) ∧
    sum_list (buckets p) = total p.
Proof.
  assert (historyX ≠ []) as Hne by discriminate.
  split_and!; [apply mapX2_object|exact Hne|].
  exact (computeProgress_counts_total heapX mapX2 historyX mapX2_object Hne).
Defined.

(** X19: for a [Map] object with at least one bucket and a non-empty
    history, the bucket counts of [computeProgress] are the sizes of the
    sets of [toBucketSets], index by index. *)
Theorem computeProgress_counts_dense (h : Heap) (m : BucketMap) history :
  MapObject h m → m ≠ [] → history ≠ [] →
  ∃ dense h1 p,
    toBucketSets m h = (Normal dense, h1) ∧
    computeProgress m history h = (Normal p, h) ∧
    buckets p = (λ r, size (contents h1 r)) <$> dense.
Proof.
  intros [Hnd Hval] Hm Hne.
  pose proof (toBucketSets_spec h m Hval) as Hdense. cbn zeta in Hdense.
  rewrite decide_False in Hdense by done.
  eexists _, _, _. split; [exact Hdense|].
  split; [by apply computeProgress_nonempty|].
  cbn [buckets]. unfold dense_counts. apply list_eq. intros i.
  rewrite !list_lookup_fmap.
  destruct (decide (i < S (max_occupied m))) as [Hi|Hi].
  - rewrite !lookup_seq_lt by done.
    pose proof (toBucketSets_lookup h m i) as Hlook.
    rewrite decide_False in Hlook by done.
    destruct (Hlook Hi) as [_ Hcopy].
    cbn [fmap option_fmap option_map]. by rewrite Hcopy.
  - by rewrite !lookup_seq_ge by lia.
Qed.

Lemma computeProgress_counts_dense_witness :
  MapObject heapX mapX2 ∧ mapX2 ≠ [] ∧ historyX ≠ [] ∧
  ∃ dense h1 p,
    toBucketSets mapX2 heapX = (Normal dense, h1) ∧
    computeProgress mapX2 historyX heapX = (Normal p, heapX) ∧
    buckets p = (λ r, size (contents h1 r)) <$> dense.
Proof.
  assert (mapX2 ≠ []) as Hm by discriminate.
  assert (historyX ≠ []) as Hne by discriminate.
  split_and!; [apply mapX2_object|exact Hm|exact Hne|].
  exact (computeProgress_counts_dense heapX mapX2 historyX mapX2_object Hm Hne).
Defined.

(** ** [update] on any mapping *)

Lemma update_scan_normal entries newMap c (h : Heap) :
  ∃ r h', update_scan entries newMap c h = (Normal r, h').
Proof.
  induction entries as [|[k s] entries IH]; [by eexists _, _|].
  cbn [update_scan]. unfold mbind at 1, M_bind at 1, setHas at 1.
  destruct (bool_decide (c ∈ contents h s)); [by eexists _, _|done].
Qed.

(** X20: [update] never throws, also on a mapping that does not satisfy
    the invariant: the [Set] it reads with [newMap.get(newBucket)] before
    adding the card is always there. *)
Theorem update_never_throws (h : Heap) (m : BucketMap) c d :
  ∃ m' h', update m c d h = (Normal m', h').
Proof.
  unfold update. unfold mbind at 1, M_bind at 1.
  destruct (update_scan_normal m m c h) as ([[b|] newMap] & h1 & ->);
    [|by eexists _, _].
  set (dest := match d with
               | Wrong => 0
               | Easy => if decide (b = 5) then b else b + 1
               | Hard => Z.to_nat (Z.max 0 (Z.of_nat b - 1))
               end).
  unfold mbind at 1, M_bind at 1.
  destruct (map_has dest newMap) eqn:Hhas.
  - apply map_has_true in Hhas as [t Ht].
    unfold mret at 1, M_ret at 1. rewrite Ht. by eexists _, _.
  - unfold mbind at 1, M_bind at 1, newSet at 1, mret at 1, M_ret at 1.
    rewrite map_get_set, decide_True by done. by eexists _, _.
Qed.

Lemma update_never_throws_witness :
  ∃ m' h', update [(0, 0); (5, 5)] cardX Hard heapOverlap = (Normal m', h').
Proof. exact (update_never_throws heapOverlap [(0, 0); (5, 5)] cardX Hard). Defined.

(** X21: when several buckets hold the card, the first one in the
    insertion order of the [Map] decides: for a [Map] object whose first
    bucket holding the card is [b], the result of [update] has the card
    in the destination computed from [b]. *)
Theorem update_first_bucket_decides (h : Heap) (m : BucketMap) c d
    pre b s post :
  MapObject h m → m = pre ++ (b, s) :: post →
  (∀ k r, (k, r) ∈ pre → c ∉ contents h r) → c ∈ contents h s →
  ∃ m' h',
    update m c d h = (Normal m', h') ∧ c ∈ bucket h' m' (destination d b).
Proof.
  intros [Hnd Hval] Hm Hpre Hs.
  pose proof (update_scan_hit pre b s post m c h Hpre Hs) as Hscan.
  rewrite <- Hm in Hscan.
  unfold update. unfold mbind at 1, M_bind at 1. rewrite Hscan.
  assert (match d with
          | Wrong => 0
          | Easy => if decide (b = 5) then b else b + 1
          | Hard => Z.to_nat (Z.max 0 (Z.of_nat b - 1))
          end = destination d b) as ->.
  { unfold destination. destruct d; try done.
    by destruct (decide (b = 5)) as [->|?]. }
  set (h1 := <[s := contents h s ∖ {[c]}]> h).
  set (m1 := if decide (size (contents h s ∖ {[c]}) = 0)
             then map_delete b m else m).
  assert (length h1 = length h) as Hlen1 by apply length_insert.
  assert (Forall (λ e, e.2 < length h1) m1) as Hval1.
  { rewrite Hlen1. unfold m1. case_decide; [|done].
    rewrite Forall_forall in Hval |- *. intros e He.
    apply Hval. by apply map_delete_sub in He. }
  unfold mbind at 1, M_bind at 1.
  destruct (map_has (destination d b) m1) eqn:Hhas.
  - apply map_has_true in Hhas as [t Ht].
    unfold mret at 1, M_ret at 1. rewrite Ht.
    unfold mbind, M_bind, setAdd, mret, M_ret.
    eexists _, _. split; [reflexivity|].
    rewrite (bucket_get _ m1 _ t Ht).
    rewrite contents_insert by (by eapply map_get_valid).
    rewrite decide_True by done. set_solver.
  - unfold mbind at 1, M_bind at 1, newSet at 1, mret at 1, M_ret at 1.
    rewrite map_get_set, decide_True by done.
    unfold mbind, M_bind, setAdd, mret, M_ret.
    eexists _, _. split; [reflexivity|].
    rewrite bucket_map_set, decide_True by done.
    rewrite contents_insert by (rewrite length_app; simpl; lia).
    rewrite decide_True by done. set_solver.
Qed.

Lemma update_first_bucket_decides_witness :
  MapObject heapOverlap [(0, 0); (5, 5)] ∧
  [(0, 0); (5, 5)] = [] ++ (0, 0) :: [(5, 5)] ∧
  (∀ k r, (k, r) ∈ ([] : BucketMap) → cardX ∉ contents heapOverlap r) ∧
  cardX ∈ contents heapOverlap 0 ∧
  ∃ m' h',
    update [(0, 0); (5, 5)] cardX Easy heapOverlap = (Normal m', h') ∧
    cardX ∈ bucket h' m' 1.
Proof.
  assert (MapObject heapOverlap [(0, 0); (5, 5)]) as Hobj.
  { split; [|repeat constructor; simpl; lia].
    apply (bool_decide_unpack _). by vm_compute. }
  assert ([(0, 0); (5, 5)] = [] ++ (0, 0) :: [(5, 5)]) as Hm by reflexivity.
  assert (∀ k r, (k, r) ∈ ([] : BucketMap) → cardX ∉ contents heapOverlap r)
    as Hpre by (by intros k r ?%elem_of_nil).
  assert (cardX ∈ contents heapOverlap 0) as Hs by (by apply elem_of_singleton).
  split_and!; [exact Hobj|exact Hm|exact Hpre|exact Hs|].
  exact (update_first_bucket_decides heapOverlap [(0, 0); (5, 5)] cardX Easy
           [] 0 0 [(5, 5)] Hobj Hm Hpre Hs).
Defined.
